(** * view: a binary trie over IPv4 addresses with longest-prefix lookup

    A shallow embedding of [view.go].  The trie ([viewNode], [viewInsert],
    [viewLookup]), the address codec ([viewUintAddr]) and the textual entry
    point ([Lookup]) are transcribed from the Go source; the properties of
    the design document are stated and proved over them. *)

From Stdlib Require Import ZArith Lia Bool Ascii String.
From stdpp Require Import base option list strings.

Local Open Scope Z_scope.

(** ** Data model *)

(** The package-level error values ([errors.New], lines 15-18).  A Go
    [error] result is an [option error], [None] standing for [nil]. *)
Inductive error : Set :=
| errBadLine
| errBadSubnet
| errDupNet
| errBadAddress.

(** [type ViewInfo struct] (lines 36-39). *)
Record ViewInfo : Set := mkViewInfo {
  area : string;
  subnet : string
}.

(** [type viewNode struct] (lines 41-45).  Every pointer field is
    nullable, hence an [option]; a node is owned by exactly one parent, so
    the pointer structure is a tree. *)
#[local] Unset Elimination Schemes.
Inductive viewNode : Set :=
| mkNode (left : option viewNode) (right : option viewNode)
         (vinfo : option ViewInfo).
#[local] Set Elimination Schemes.

Definition left (n : viewNode) : option viewNode :=
  match n with mkNode l _ _ => l end.
Definition right (n : viewNode) : option viewNode :=
  match n with mkNode _ r _ => r end.
Definition vinfo (n : viewNode) : option ViewInfo :=
  match n with mkNode _ _ i => i end.

(** [&viewNode{}]: the zero value of a node. *)
Definition emptyNode : viewNode := mkNode None None None.

(** [type View struct] (lines 47-51); [root] is held by value. *)
Record View : Set := mkView {
  root : viewNode;
  fileName : string;
  lineNum : N
}.

(** [func New() *View] (lines 73-75): the zero value of [View]. *)
Definition New : View := mkView emptyNode "" 0%N.

(** ** Bit selection *)

(** The initial value of [bit] in both trie walks: [0x80000000]. *)
Definition topBit : Z := 0x80000000.

(** The test [unetaddr&bit != 0] of lines 84, 113 and 247. *)
Definition bitSet (unetaddr bit : Z) : bool :=
  negb (Z.land unetaddr bit =? 0).

(** The child a walk moves to: [node.right] when the bit is set,
    [node.left] otherwise. *)
Definition child (side : bool) (node : viewNode) : option viewNode :=
  if side then right node else left node.

(** The assignment [node.right = next] or [node.left = next]. *)
Definition setChild (side : bool) (node next : viewNode) : viewNode :=
  match node with
  | mkNode l r i => if side then mkNode l (Some next) i
                    else mkNode (Some next) r i
  end.

(** The assignment [node.vinfo = info]. *)
Definition setVinfo (node : viewNode) (info : option ViewInfo) : viewNode :=
  match node with mkNode l r _ => mkNode l r info end.

(** ** viewInsert (lines 77-127) *)

(** [node] points into the tree: the nodes the walk has left behind,
    nearest first, each with the side on which it was left.  A write
    through [node] is a write into the tree below every one of them;
    [viewPlug] gives the root that results. *)
Definition viewTrail : Set := list (bool * viewNode).

Fixpoint viewPlug (trail : viewTrail) (node : viewNode) : viewNode :=
  match trail with
  | [] => node
  | (side, parent) :: up => viewPlug up (setChild side parent node)
  end.

(** The variables of [viewInsert] when its first loop is left: the node
    [node] points to and the way to it, [next] ([None] for [nil]), [bit],
    and the rounds [mask] still allows. *)
Record insertState : Set := mkInsertState {
  isTrail : viewTrail;
  isNode : viewNode;
  isNext : option viewNode;
  isBit : Z;
  isMask : nat
}.

(** The loop of lines 83-99.  [mask] counts the rounds [for mask > 0]
    still allows: each round selects [next]; a [nil] child leaves the loop
    ([break]) with [bit] and [mask] as they are, otherwise [bit] is
    shifted, [node] moves to [next] and [mask] goes down by one. *)
Fixpoint viewInsertWalk (mask : nat) (unetaddr bit : Z) (trail : viewTrail)
    (node : viewNode) (next : option viewNode) : insertState :=
  match mask with
  | O => mkInsertState trail node next bit O
  | S mask' =>
      match child (bitSet unetaddr bit) node with
      | None => mkInsertState trail node None bit (S mask')
      | Some n =>
          viewInsertWalk mask' unetaddr (Z.shiftr bit 1)
            ((bitSet unetaddr bit, node) :: trail) n (Some n)
      end
  end.

(** The loop of lines 110-122: each round allocates [next], hangs it
    under [node] on the side chosen by [bit], and moves [node] to it. *)
Fixpoint viewInsertCreate (mask : nat) (unetaddr bit : Z) (trail : viewTrail)
    (node : viewNode) : viewTrail * viewNode :=
  match mask with
  | O => (trail, node)
  | S mask' =>
      viewInsertCreate mask' unetaddr (Z.shiftr bit 1)
        ((bitSet unetaddr bit, node) :: trail) emptyNode
  end.

(** The [View] with its root replaced. *)
Definition withRoot (v : View) (r : viewNode) : View :=
  mkView r (fileName v) (lineNum v).

(** [func (v *View) viewInsert(unetaddr uint32, mask int, info *ViewInfo)].
    The loops run while [mask > 0] and take one off [mask] per round, that
    is [Z.to_nat mask] rounds in all.  After the first loop: with
    [next != nil] (lines 101-108) a node that carries an entry gives
    [errDupNet], nothing having been written, and one that carries none
    receives [info]; with [next == nil] the second loop creates the rest of
    the path and its last node receives [info] (line 124). *)
Definition viewInsert (v : View) (unetaddr mask : Z)
    (info : option ViewInfo) : View * option error :=
  let s :=
    viewInsertWalk (Z.to_nat mask) unetaddr topBit [] (root v)
      (Some (root v)) in
  match isNext s with
  | Some _ =>
      match vinfo (isNode s) with
      | Some _ => (v, Some errDupNet)
      | None =>
          (withRoot v (viewPlug (isTrail s) (setVinfo (isNode s) info)),
           None)
      end
  | None =>
      let '(trail, node) :=
        viewInsertCreate (isMask s) unetaddr (isBit s) (isTrail s)
          (isNode s) in
      (withRoot v (viewPlug trail (setVinfo node info)), None)
  end.

(** *** The same insertion, by recursion on the tree *)

(** The chain the creation loop builds below the node where the walk
    stopped: [mask] nodes under a fresh one, [info] on the last. *)
Fixpoint viewGrow (mask : nat) (unetaddr bit : Z) (info : option ViewInfo)
  : viewNode :=
  match mask with
  | O => setVinfo emptyNode info
  | S mask' =>
      setChild (bitSet unetaddr bit) emptyNode
        (viewGrow mask' unetaddr (Z.shiftr bit 1) info)
  end.

(** What [viewInsert] makes of the subtree at [node] with [mask] rounds
    to go, and the error it returns ([viewInsert_recursive] below). *)
Fixpoint viewInsertFrom (mask : nat) (unetaddr bit : Z)
    (info : option ViewInfo) (node : viewNode) : viewNode * option error :=
  match mask with
  | O =>
      match vinfo node with
      | Some _ => (node, Some errDupNet)
      | None => (setVinfo node info, None)
      end
  | S mask' =>
      let side := bitSet unetaddr bit in
      match child side node with
      | None =>
          (setChild side node (viewGrow mask' unetaddr (Z.shiftr bit 1) info),
           None)
      | Some next =>
          let '(next', err) :=
            viewInsertFrom mask' unetaddr (Z.shiftr bit 1) info next in
          (setChild side node next', err)
      end
  end.

(** ** viewLookup (lines 236-257) *)

(** The loop [for node != nil], entered with a non-nil [node]: a round
    remembers the entry of the node when it has one, selects the child and
    shifts [bit]; the loop is left when the child is [nil].  The recursion
    follows the child pointer, so it is a recursion on the tree. *)
Fixpoint viewLookupFrom (unetaddr : Z) (node : viewNode) (bit : Z)
    (info : option ViewInfo) : option ViewInfo :=
  match node with
  | mkNode l r i =>
      let info' := match i with Some x => Some x | None => info end in
      match (if bitSet unetaddr bit then r else l) with
      | None => info'
      | Some next => viewLookupFrom unetaddr next (Z.shiftr bit 1) info'
      end
  end.

(** [func (v *View) viewLookup(unetaddr uint32) (info *ViewInfo)]. *)
Definition viewLookup (v : View) (unetaddr : Z) : option ViewInfo :=
  viewLookupFrom unetaddr (root v) topBit None.

(** ** Address codec *)

(** Conversions to Go's fixed-width unsigned types keep the low bits. *)
Definition uint8 (z : Z) : Z := z mod 2 ^ 8.
Definition uint32 (z : Z) : Z := z mod 2 ^ 32.

(** [func viewUintAddr(netaddr [4]uint8) (unetaddr uint32)] (lines 65-71).
    [binary.Read] with [binary.BigEndian] into a [uint32] computes
    [uint32(b[3]) | uint32(b[2])<<8 | uint32(b[1])<<16 | uint32(b[0])<<24].
    The array is a list of four octets. *)
Definition viewUintAddr (netaddr : list Z) : Z :=
  Z.lor (Z.lor (Z.lor (uint32 (netaddr !!! 3%nat))
                      (uint32 (Z.shiftl (uint32 (netaddr !!! 2%nat)) 8)))
               (uint32 (Z.shiftl (uint32 (netaddr !!! 1%nat)) 16)))
        (uint32 (Z.shiftl (uint32 (netaddr !!! 0%nat)) 24)).

(** ** Library functions used by the parsers *)

(** [bytes.Split(s, sep)] for a separator of one byte, the only kind the
    package uses: the pieces between the occurrences of [sep], one more
    than there are occurrences. *)
Fixpoint bytesSplit (s : string) (sep : ascii) : list string :=
  match s with
  | EmptyString => [EmptyString]
  | String c s' =>
      let rest := bytesSplit s' sep in
      if Ascii.eqb c sep then EmptyString :: rest
      else match rest with
           | piece :: pieces => String c piece :: pieces
           | [] => [String c EmptyString]
           end
  end.

(** Bounds of Go's [int] on a 64-bit platform. *)
Definition minInt : Z := - 2 ^ 63.
Definition maxInt : Z := 2 ^ 63 - 1.

Definition isDigit (c : ascii) : bool :=
  (48 <=? Z.of_N (N_of_ascii c)) && (Z.of_N (N_of_ascii c) <=? 57).

(** The value of a string of decimal digits, [None] when some byte is
    not a digit. *)
Fixpoint digitsValue (s : string) (acc : Z) : option Z :=
  match s with
  | EmptyString => Some acc
  | String c s' =>
      if isDigit c
      then digitsValue s' (acc * 10 + (Z.of_N (N_of_ascii c) - 48))
      else None
  end.

(** [strconv.Atoi] (which is [ParseInt(s, 10, 0)]): an optional sign
    followed by one or more decimal digits, whose value fits an [int];
    [None] stands for a non-nil error, of syntax or of range. *)
Definition Atoi (s : string) : option Z :=
  let '(neg, digits) :=
    match s with
    | String "-"%char r => (true, r)
    | String "+"%char r => (false, r)
    | _ => (false, s)
    end in
  match digits with
  | EmptyString => None
  | _ =>
      match digitsValue digits 0 with
      | None => None
      | Some n =>
          let v := if neg then - n else n in
          if (minInt <=? v) && (v <=? maxInt) then Some v else None
      end
  end.

(** ** Lookup (lines 259-280) and viewSubnet (lines 129-163) *)

(** The loop [for i := 0; i < 4; i++] of lines 145-151 and 269-275:
    [rounds] rounds are left, [i] is the index, and an [Atoi] error leaves
    the loop (and the function) at once.  Both callers have checked
    [len(ipfs) == 4] and pass an array of four octets, so [ipfs[i]] and
    [netaddr[i]] are within range. *)
Fixpoint viewOctets (ipfs : list string) (i rounds : nat)
    (netaddr : list Z) : option (list Z) :=
  match rounds with
  | O => Some netaddr
  | S rounds' =>
      match Atoi (ipfs !!! i) with
      | None => None
      | Some baddr =>
          viewOctets ipfs (S i) rounds' (<[i := uint8 baddr]> netaddr)
      end
  end.

(** [var netaddr [4]uint8]: four zero octets. *)
Definition zeroAddr : list Z := replicate 4 0.

(** [func (v *View) Lookup(addr string) (info *ViewInfo, err error)]. *)
Definition Lookup (v : View) (addr : string)
  : option ViewInfo * option error :=
  let ipfs := bytesSplit addr "."%char in
  if negb (length ipfs =? 4)%nat then (None, Some errBadAddress)
  else
    match viewOctets ipfs 0 4 zeroAddr with
    | None => (None, Some errBadAddress)
    | Some netaddr => (viewLookup v (viewUintAddr netaddr), None)
    end.

(** [func (v *View) viewSubnet(subnet []byte, area []byte) (err error)].
    The error of [viewInsert] is dropped (line 160). *)
Definition viewSubnet (v : View) (subnet area : string)
  : View * option error :=
  let netfs := bytesSplit subnet "/"%char in
  if negb (length netfs =? 2)%nat then (v, Some errBadSubnet)
  else
    let ipfs := bytesSplit (netfs !!! 0%nat) "."%char in
    if negb (length ipfs =? 4)%nat then (v, Some errBadSubnet)
    else
      match viewOctets ipfs 0 4 zeroAddr with
      | None => (v, Some errBadSubnet)
      | Some netaddr =>
          match Atoi (netfs !!! 1%nat) with
          | None => (v, Some errBadSubnet)
          | Some mask =>
              (fst (viewInsert v (viewUintAddr netaddr) mask
                      (Some (mkViewInfo area subnet))), None)
          end
      end.

(** ** Sequences of insertions *)

(** One call [viewInsert(unetaddr, mask, &ViewInfo{...})] with a non-nil
    entry: address, prefix length, entry. *)
Definition insertion : Set := (Z * Z * ViewInfo)%type.

Definition insAddr (op : insertion) : Z := fst (fst op).
Definition insLen (op : insertion) : Z := snd (fst op).
Definition insEntry (op : insertion) : ViewInfo := snd op.

(** The call itself; the trie it leaves behind and the error it
    returns. *)
Definition viewInsertOp (v : View) (op : insertion) : View * option error :=
  viewInsert v (insAddr op) (insLen op) (Some (insEntry op)).

(** The trie left by a sequence of calls on [New()], whatever each call
    returned. *)
Definition build (ops : list insertion) : View :=
  fold_left (fun v op => fst (viewInsertOp v op)) ops New.

(** ** Positions in the trie *)

(** The sides a walk of [n] rounds takes for [unetaddr], starting with
    [bit]. *)
Fixpoint viewPath (n : nat) (unetaddr bit : Z) : list bool :=
  match n with
  | O => []
  | S n' => bitSet unetaddr bit :: viewPath n' unetaddr (Z.shiftr bit 1)
  end.

(** The node reached from [node] by a list of sides, if it exists. *)
Fixpoint nodeAt (p : list bool) (node : viewNode) : option viewNode :=
  match p with
  | [] => Some node
  | side :: p' =>
      match child side node with
      | None => None
      | Some next => nodeAt p' next
      end
  end.

(** The entry a position carries, [None] when the node is missing or
    has no entry. *)
Definition entryAt (p : list bool) (node : viewNode) : option ViewInfo :=
  match nodeAt p node with
  | None => None
  | Some n => vinfo n
  end.

(** The position [viewInsert] targets: the node at depth [mask] along the
    bit path of [unetaddr]. *)
Definition targetOf (unetaddr mask : Z) : list bool :=
  viewPath (Z.to_nat mask) unetaddr topBit.

Definition insTarget (op : insertion) : list bool :=
  targetOf (insAddr op) (insLen op).

(** Number of nodes on the longest downward chain from [node]. *)
Fixpoint height (node : viewNode) : nat :=
  match node with
  | mkNode l r _ =>
      S (Nat.max (match l with Some c => height c | None => O end)
                 (match r with Some c => height c | None => O end))
  end.

(** ** The lookup loop, one round at a time *)

(** The variables of the loop of [viewLookup]. *)
Record lookupState : Set := mkLookupState {
  lsNode : option viewNode;
  lsBit : Z;
  lsInfo : option ViewInfo
}.

Definition lookupInit (v : View) : lookupState :=
  mkLookupState (Some (root v)) topBit None.

(** One round of [for node != nil] (lines 243-253); a state whose node is
    [nil] has left the loop and stays as it is. *)
Definition lookupStep (unetaddr : Z) (s : lookupState) : lookupState :=
  match lsNode s with
  | None => s
  | Some node =>
      mkLookupState
        (child (bitSet unetaddr (lsBit s)) node)
        (Z.shiftr (lsBit s) 1)
        (match vinfo node with Some x => Some x | None => lsInfo s end)
  end.

(** The state of the lookup loop after [k] rounds from [s]. *)
Fixpoint lookupRun (k : nat) (unetaddr : Z) (s : lookupState) : lookupState :=
  match k with
  | O => s
  | S k' => lookupRun k' unetaddr (lookupStep unetaddr s)
  end.

(** Number of rounds the loop runs from [node]. *)
Fixpoint lookupRounds (unetaddr : Z) (node : viewNode) (bit : Z) : nat :=
  match node with
  | mkNode l r _ =>
      match (if bitSet unetaddr bit then r else l) with
      | None => 1%nat
      | Some next => S (lookupRounds unetaddr next (Z.shiftr bit 1))
      end
  end.

(** ** The longest-prefix rule, stated on the insertions *)

(** The first [len] bits of [a] and [b], counted from bit 31 down, are
    the same. *)
Definition prefixMatch (a len b : Z) : bool :=
  forallb (fun i : nat =>
             Bool.eqb (Z.testbit a (31 - Z.of_nat i))
                      (Z.testbit b (31 - Z.of_nat i)))
          (seq 0 (Z.to_nat len)).

Definition matches (A : Z) (op : insertion) : bool :=
  prefixMatch (insAddr op) (insLen op) A.

(** The insertions whose prefix contains [A], in call order. *)
Definition matching (ops : list insertion) (A : Z) : list insertion :=
  filter (fun op => matches A op = true) ops.

(** The greatest prefix length in a list of insertions with lengths from
    0 up. *)
Definition maxLen (ops : list insertion) : Z :=
  foldr Z.max 0 (map insLen ops).

(** The entry of the earliest call among the calls of greatest prefix
    length whose prefix contains [A]. *)
Definition bestMatch (ops : list insertion) (A : Z) : option ViewInfo :=
  let ms := matching ops A in
  insEntry <$> head (filter (fun op => insLen op = maxLen ms) ms).

(** The entry of the earliest call that targets position [q]. *)
Fixpoint firstAt (ops : list insertion) (q : list bool) : option ViewInfo :=
  match ops with
  | [] => None
  | op :: ops' =>
      if decide (insTarget op = q) then Some (insEntry op)
      else firstAt ops' q
  end.

(** Two insertions name the same prefix: same length, same leading
    bits. *)
Definition samePrefix (op op' : insertion) : Prop :=
  insLen op = insLen op' /\
  prefixMatch (insAddr op) (insLen op) (insAddr op') = true.

(** No two calls of the sequence name the same prefix. *)
Definition prefixesDistinct (ops : list insertion) : Prop :=
  forall (i j : nat) op op',
    ops !! i = Some op -> ops !! j = Some op' -> samePrefix op op' -> i = j.

(** Re-deriving the four octets of a 32-bit value, high byte first. *)
Definition octetsOf (u : Z) : list Z :=
  [Z.land (Z.shiftr u 24) 255; Z.land (Z.shiftr u 16) 255;
   Z.land (Z.shiftr u 8) 255; Z.land u 255].

(** Packing by place value, as the design document words it. *)
Definition packed (a b c d : Z) : Z :=
  a * 2 ^ 24 + b * 2 ^ 16 + c * 2 ^ 8 + d.

(** ** What the parsers read *)

(** The address and the prefix length [viewSubnet] reads from a subnet
    text (lines 135-158), [None] where it returns [errBadSubnet]. *)
Definition viewSubnetParse (subnet : string) : option (Z * Z) :=
  let netfs := bytesSplit subnet "/"%char in
  if negb (length netfs =? 2)%nat then None
  else
    let ipfs := bytesSplit (netfs !!! 0%nat) "."%char in
    if negb (length ipfs =? 4)%nat then None
    else
      match viewOctets ipfs 0 4 zeroAddr with
      | None => None
      | Some netaddr =>
          match Atoi (netfs !!! 1%nat) with
          | None => None
          | Some mask => Some (viewUintAddr netaddr, mask)
          end
      end.

(** The insertion a subnet text stands for, with the entry [viewSubnet]
    builds for it. *)
Definition viewSubnetOp (subnet area : string) : option insertion :=
  match viewSubnetParse subnet with
  | None => None
  | Some (unetaddr, mask) => Some (unetaddr, mask, mkViewInfo area subnet)
  end.

(** A sequence of insertions made on any [View]. *)
Definition viewInsertAll (v : View) (ops : list insertion) : View :=
  fold_left (fun v op => fst (viewInsertOp v op)) ops v.

(** An octet in decimal, without sign or leading zeros, and a dotted
    quad written that way. *)
Definition digitChar (d : Z) : ascii := ascii_of_N (Z.to_N (48 + d)).

Definition showOctet (n : Z) : string :=
  if n <? 10 then String (digitChar n) EmptyString
  else if n <? 100 then
    String (digitChar (n / 10)) (String (digitChar (n mod 10)) EmptyString)
  else
    String (digitChar (n / 100))
      (String (digitChar (n / 10 mod 10))
         (String (digitChar (n mod 10)) EmptyString)).

Definition dottedQuad (a b c d : Z) : string :=
  (showOctet a ++ "." ++ showOctet b ++ "." ++ showOctet c ++ "." ++
   showOctet d)%string.

(** ** viewLine (lines 165-192) *)

(** The errors of the loader: the error of [os.Open] and an error of
    [ReadBytes] other than [io.EOF], both returned as they come, and the
    error [fmt.Errorf("%s Line:%d\n", e.Error(), n)] built from a package
    error and a line number. *)
Inductive loadError : Set :=
| errOpen
| errRead
| errAtLine (e : error) (n : N).

(** The constants of lines 24-29. *)
Definition viewLineFields : nat := 5.
Definition viewLineNetField : nat := 4.
Definition viewNetFieldPrefix : string := "{".
Definition viewNetFieldSuffix : string := ";};};".
Definition viewNetFieldSep : ascii := ";".

(** [bytes.HasPrefix] and [bytes.HasSuffix]: long enough, and equal on
    the first, respectively last, bytes. *)
Definition bytesHasPrefix (s p : string) : bool :=
  (String.length p <=? String.length s)%nat &&
  String.eqb (substring 0 (String.length p) s) p.

Definition bytesHasSuffix (s suf : string) : bool :=
  (String.length suf <=? String.length s)%nat &&
  String.eqb (substring (String.length s - String.length suf)
                (String.length suf) s) suf.

(** The slice expressions [s[lo:]] and [s[:hi]].  [None] is the run-time
    panic of a bound out of range; [hi] is computed in [int] and never
    exceeds the length where the package uses it. *)
Definition sliceFrom (s : string) (lo : nat) : option string :=
  if (lo <=? String.length s)%nat
  then Some (substring lo (String.length s - lo) s)
  else None.

Definition sliceUpTo (s : string) (hi : Z) : option string :=
  if (0 <=? hi) && (hi <=? Z.of_nat (String.length s))
  then Some (substring 0 (Z.to_nat hi) s)
  else None.

(** The loop of lines 185-189 over the subnets that are left; [fields[1]]
    is read in every round.  [None] is a panic. *)
Fixpoint viewLineLoop (v : View) (subNets fields : list string)
  : option (View * option loadError) :=
  match subNets with
  | [] => Some (v, None)
  | sn :: rest =>
      match fields !! 1%nat with
      | None => None
      | Some area =>
          match viewSubnet v sn area with
          | (v', Some err) => Some (v', Some (errAtLine err (lineNum v')))
          | (v', None) => viewLineLoop v' rest fields
          end
      end
  end.

(** [func (v *View) viewLine(line []byte) (err error)].  [bytes.Fields]
    splits at white space as Unicode defines it; it is the parameter
    [Fields].  [None] is a panic. *)
Definition viewLine (Fields : string -> list string) (v : View)
    (line : string) : option (View * option loadError) :=
  let fields := Fields line in
  if negb (length fields =? viewLineFields)%nat
  then Some (v, Some (errAtLine errBadLine (lineNum v)))
  else
    match fields !! viewLineNetField with
    | None => None
    | Some net =>
        match (if bytesHasPrefix net viewNetFieldPrefix
               then sliceFrom net 1 else Some net) with
        | None => None
        | Some subNetBuf =>
            match (if bytesHasSuffix net viewNetFieldSuffix
                   then sliceUpTo subNetBuf
                          (Z.of_nat (String.length subNetBuf) -
                           Z.of_nat (String.length viewNetFieldSuffix))
                   else Some subNetBuf) with
            | None => None
            | Some subNetBuf' =>
                let subNets := bytesSplit subNetBuf' viewNetFieldSep in
                if (length subNets <? 1)%nat then Some (v, None)
                else viewLineLoop v subNets fields
            end
        end
    end.

(** ** Init (lines 194-234) *)

(** How the reads of the file end: with [io.EOF], or with another
    error. *)
Inductive readEnd : Set :=
| readEOF
| readFails.

(** [v.lineNum++] on a [uint] of 64 bits. *)
Definition lineNumNext (n : N) : N := ((n + 1) mod 2 ^ 64)%N.

Definition withLineNum (v : View) (n : N) : View :=
  mkView (root v) (fileName v) n.

(** The chunks [reader.ReadBytes('\n')] returns with a [nil] error, each
    ending in the newline, and the bytes it returns last, with the error
    that ends the reads. *)
Definition readChunks (content : string) : list string :=
  (fun piece => (piece ++ String "010"%char EmptyString)%string) <$>
  removelast (bytesSplit content "010"%char).

Definition readLast (content : string) : string :=
  List.last (bytesSplit content "010"%char) EmptyString.

(** The loop [for err == nil] of lines 207-231, over the chunks still to
    be read.  [bytes.TrimSpace] is the parameter [TrimSpace].  [None] is a
    panic. *)
Fixpoint viewInitLoop (Fields : string -> list string)
    (TrimSpace : string -> string) (v : View) (chunks : list string)
    (rest : string) (fin : readEnd) : option (View * option loadError) :=
  match chunks with
  | chunk :: chunks' =>
      let line := TrimSpace chunk in
      let v1 := withLineNum v (lineNumNext (lineNum v)) in
      if (String.length line =? 0)%nat
      then viewInitLoop Fields TrimSpace v1 chunks' rest fin
      else
        match viewLine Fields v1 line with
        | None => None
        | Some (v2, Some lerr) => Some (v2, Some lerr)
        | Some (v2, None) => viewInitLoop Fields TrimSpace v2 chunks' rest fin
        end
  | [] =>
      match fin with
      | readFails => Some (v, Some errRead)
      | readEOF =>
          let line := TrimSpace rest in
          let v1 := withLineNum v (lineNumNext (lineNum v)) in
          if (String.length line =? 0)%nat then Some (v1, None)
          else
            match viewLine Fields v1 line with
            | None => None
            | Some (v2, Some lerr) => Some (v2, Some lerr)
            | Some (v2, None) => Some (v2, None)
            end
      end
  end.

(** [func (v *View) Init(fileName string) (err error)].  [file] is what
    the file system gives: [None] when [os.Open] fails, else the bytes
    read and how the reads end. *)
Definition Init (Fields : string -> list string)
    (TrimSpace : string -> string) (v : View) (name : string)
    (file : option (string * readEnd)) : option (View * option loadError) :=
  match file with
  | None => Some (v, Some errOpen)
  | Some (content, fin) =>
      viewInitLoop Fields TrimSpace (mkView (root v) name (lineNum v))
        (readChunks content) (readLast content) fin
  end.

(** *** The library functions on ASCII text *)

(** White space below 0x80: tab, newline, vertical tab, form feed,
    carriage return, space. *)
Definition asciiSpace (c : ascii) : bool :=
  let n := N_of_ascii c in
  ((9 <=? n) && (n <=? 13))%N || (n =? 32)%N.

(** [bytes.Fields] on a text of bytes below 0x80; [cur] is the field
    being read. *)
Fixpoint asciiFieldsFrom (s : string) (cur : option string) : list string :=
  match s with
  | EmptyString => match cur with Some w => [w] | None => [] end
  | String c s' =>
      if asciiSpace c
      then match cur with
           | Some w => w :: asciiFieldsFrom s' None
           | None => asciiFieldsFrom s' None
           end
      else
        asciiFieldsFrom s'
          (Some (match cur with
                 | Some w => w ++ String c EmptyString
                 | None => String c EmptyString
                 end)%string)
  end.

Definition asciiFields (s : string) : list string := asciiFieldsFrom s None.

(** [bytes.TrimSpace] on a text of bytes below 0x80. *)
Fixpoint asciiTrimLeft (s : string) : string :=
  match s with
  | EmptyString => EmptyString
  | String c s' => if asciiSpace c then asciiTrimLeft s' else s
  end.

Fixpoint asciiTrimRight (s : string) : string :=
  match s with
  | EmptyString => EmptyString
  | String c s' =>
      match asciiTrimRight s' with
      | EmptyString => if asciiSpace c then EmptyString
                       else String c EmptyString
      | r => String c r
      end
  end.

Definition asciiTrimSpace (s : string) : string :=
  asciiTrimRight (asciiTrimLeft s).

(** ** What a line and a file load *)

(** The net field with its prefix and its suffix taken off. *)
Definition netFieldBody (net : string) : string :=
  let buf := if bytesHasPrefix net viewNetFieldPrefix
             then substring 1 (String.length net - 1) net else net in
  if bytesHasSuffix net viewNetFieldSuffix
  then substring 0 (String.length buf - String.length viewNetFieldSuffix) buf
  else buf.

(** The insertions of the subnet texts up to the first one that does not
    parse, and [errBadSubnet] when there is one. *)
Fixpoint piecesOps (area : string) (pieces : list string)
  : list insertion * option error :=
  match pieces with
  | [] => ([], None)
  | piece :: rest =>
      match viewSubnetOp piece area with
      | None => ([], Some errBadSubnet)
      | Some op =>
          let '(ops, err) := piecesOps area rest in (op :: ops, err)
      end
  end.

(** The same for a line: its second field is the area, its fifth the
    subnets. *)
Definition lineOps (Fields : string -> list string) (line : string)
  : list insertion * option error :=
  let fields := Fields line in
  if negb (length fields =? viewLineFields)%nat then ([], Some errBadLine)
  else
    piecesOps (fields !!! 1%nat)
      (bytesSplit (netFieldBody (fields !!! viewLineNetField))
         viewNetFieldSep).

(** The same for the lines of a file, [k] lines having been read: the
    insertions up to the first line that fails, and that line's number
    counted from 1 with its error. *)
Fixpoint linesOps (Fields : string -> list string)
    (TrimSpace : string -> string) (lines : list string) (k : N)
  : list insertion * option (N * error) :=
  match lines with
  | [] => ([], None)
  | chunk :: rest =>
      let line := TrimSpace chunk in
      if (String.length line =? 0)%nat
      then linesOps Fields TrimSpace rest (k + 1)%N
      else
        match lineOps Fields line with
        | (ops, Some err) => (ops, Some ((k + 1)%N, err))
        | (ops, None) =>
            let '(ops', res) := linesOps Fields TrimSpace rest (k + 1)%N in
            (ops ++ ops', res)
        end
  end.

(** The line counter after [k] more lines. *)
Definition lineNumAfter (n k : N) : N :=
  if (k =? 0)%N then n else ((n + k) mod 2 ^ 64)%N.

(** The lines [Init] gets to read: the chunks that end in a newline,
    and, when the reads end with [io.EOF], the bytes after the last
    newline. *)
Definition readLines (content : string) (fin : readEnd) : list string :=
  readChunks content ++
  match fin with readEOF => [readLast content] | readFails => [] end.

(** What [Init] returns when no line fails. *)
Definition readEndError (fin : readEnd) : option loadError :=
  match fin with readEOF => None | readFails => Some errRead end.

(** ** Size of a trie *)

(** Number of nodes of the tree below and including [node]: what the
    allocations [&viewNode{}] of [viewInsert] add up to, the root being
    part of the [View]. *)
Fixpoint nodeCount (node : viewNode) : nat :=
  match node with
  | mkNode l r _ =>
      S ((match l with Some c => nodeCount c | None => O end) +
         (match r with Some c => nodeCount c | None => O end))
  end.


(** ** Sample insertions *)

(** Two calls that differ in the host bits only. *)
Definition dupFirst : insertion := (0x0A000001, 8, mkViewInfo "a" "10.0.0.1/8").
Definition dupSecond : insertion := (0x0A000002, 8, mkViewInfo "b" "10.0.0.2/8").

(** The nested prefixes 10.0.0.0/8 and 10.1.0.0/16. *)
Definition nestOuter : insertion := (0x0A000000, 8, mkViewInfo "A" "10.0.0.0/8").
Definition nestInner : insertion := (0x0A010000, 16, mkViewInfo "B" "10.1.0.0/16").

(** A file of two views with an empty line between them, a file whose
    second line has a malformed subnet, and the line of the first. *)
Definition newline : string := String "010"%char EmptyString.

Definition sampleLine : string :=
  "view CT { match-clients {10.0.0.0/8;10.1.0.0/16;};};".

Definition sampleConfig : string :=
  (sampleLine ++ newline ++ newline ++
   "  view CNC { match-clients {192.168.0.0/16;10.0.0.9/8;};};  " ++
   newline)%string.

Definition brokenConfig : string :=
  (sampleLine ++ newline ++
   "view X { match-clients {172.16.0.0/12;172.16.0.0;};};" ++ newline)%string.

(** * Properties *)

(** ** Induction on nodes *)

Lemma viewNode_ind (P : viewNode -> Prop) :
  (forall l r i,
      (forall c, l = Some c -> P c) ->
      (forall c, r = Some c -> P c) ->
      P (mkNode l r i)) ->
  forall n, P n.
Proof.
  intros H. fix IH 1. intros [l r i]. apply H.
  - destruct l as [c'|]; intros c Hc; [|discriminate].
    injection Hc as <-. apply IH.
  - destruct r as [c'|]; intros c Hc; [|discriminate].
    injection Hc as <-. apply IH.
Qed.

(** ** Children, entries and positions *)

#[local] Arguments setChild : simpl never.
#[local] Arguments setVinfo : simpl never.
#[local] Arguments child : simpl never.
#[local] Arguments entryAt : simpl never.

Lemma child_setChild_same side node next :
  child side (setChild side node next) = Some next.
Proof. destruct node, side; reflexivity. Qed.

Lemma child_setChild_other side side' node next :
  side <> side' -> child side' (setChild side node next) = child side' node.
Proof. destruct node, side, side'; intros H; try reflexivity; congruence. Qed.

Lemma vinfo_setChild side node next :
  vinfo (setChild side node next) = vinfo node.
Proof. destruct node, side; reflexivity. Qed.

Lemma setChild_same_child side node next :
  child side node = Some next -> setChild side node next = node.
Proof. destruct node, side; unfold child, setChild; cbn; intros ->; reflexivity. Qed.

Lemma child_setVinfo side node info :
  child side (setVinfo node info) = child side node.
Proof. destruct node, side; reflexivity. Qed.

Lemma vinfo_setVinfo node info : vinfo (setVinfo node info) = info.
Proof. destruct node; reflexivity. Qed.

Lemma entryAt_nil node : entryAt [] node = vinfo node.
Proof. reflexivity. Qed.

Lemma entryAt_cons side p node :
  entryAt (side :: p) node =
  match child side node with
  | None => None
  | Some next => entryAt p next
  end.
Proof. unfold entryAt; cbn. destruct (child side node); reflexivity. Qed.

Lemma entryAt_emptyNode p : entryAt p emptyNode = None.
Proof. destruct p as [|[] p]; reflexivity. Qed.

Lemma viewPath_length n a bit : length (viewPath n a bit) = n.
Proof. revert bit; induction n; intros; simpl; auto. Qed.

(** Entries of a freshly grown chain: [info] at its end, nothing
    elsewhere. *)
Lemma entryAt_viewGrow n a bit info q :
  entryAt q (viewGrow n a bit info) =
  if decide (q = viewPath n a bit) then info else None.
Proof.
  revert bit q; induction n as [|n IH]; intros bit q; simpl.
  - destruct q as [|[] q]; simpl; try reflexivity.
  - destruct q as [|side q].
    + rewrite entryAt_nil, vinfo_setChild. reflexivity.
    + rewrite entryAt_cons.
      destruct (decide (bitSet a bit = side)) as [<-|Hne].
      * rewrite child_setChild_same, IH.
        repeat case_decide; congruence.
      * rewrite child_setChild_other by assumption.
        rewrite decide_False by congruence.
        destruct side; reflexivity.
Qed.

(** ** What one insertion does *)

(** The target carries an entry: [errDupNet], and the trie is the one
    that was passed in. *)
Lemma viewInsertFrom_dup n a bit info node x :
  entryAt (viewPath n a bit) node = Some x ->
  viewInsertFrom n a bit info node = (node, Some errDupNet).
Proof.
  revert bit node; induction n as [|n IH]; intros bit node; simpl.
  - rewrite entryAt_nil. intros ->. reflexivity.
  - rewrite entryAt_cons.
    destruct (child (bitSet a bit) node) as [next|] eqn:Hc; [|discriminate].
    intros H. rewrite (IH _ _ H).
    rewrite setChild_same_child by assumption. reflexivity.
Qed.

(** The target carries no entry (or does not exist): no error, [info]
    sits at the target and every other position keeps what it had. *)
Lemma viewInsertFrom_fresh n a bit info node :
  entryAt (viewPath n a bit) node = None ->
  snd (viewInsertFrom n a bit info node) = None /\
  forall q, entryAt q (fst (viewInsertFrom n a bit info node)) =
            if decide (q = viewPath n a bit) then info else entryAt q node.
Proof.
  revert bit node; induction n as [|n IH]; intros bit node; simpl.
  - rewrite entryAt_nil. intros ->. split; [reflexivity|].
    intros [|side q]; simpl.
    + rewrite entryAt_nil, vinfo_setVinfo. reflexivity.
    + rewrite !entryAt_cons, child_setVinfo. reflexivity.
  - rewrite entryAt_cons.
    destruct (child (bitSet a bit) node) as [next|] eqn:Hc.
    + intros H. destruct (IH (Z.shiftr bit 1) next H) as [He Hq].
      destruct (viewInsertFrom n a (Z.shiftr bit 1) info next)
        as [next' err]; simpl in *.
      split; [assumption|].
      intros [|side q].
      * rewrite !entryAt_nil, vinfo_setChild. reflexivity.
      * rewrite !entryAt_cons.
        destruct (decide (bitSet a bit = side)) as [<-|Hne].
        -- rewrite child_setChild_same, Hc, Hq.
           repeat case_decide; congruence.
        -- rewrite child_setChild_other by assumption.
           rewrite decide_False by congruence. reflexivity.
    + intros _. simpl. split; [reflexivity|].
      intros [|side q].
      * rewrite !entryAt_nil, vinfo_setChild. reflexivity.
      * rewrite !entryAt_cons.
        destruct (decide (bitSet a bit = side)) as [<-|Hne].
        -- rewrite child_setChild_same, Hc, entryAt_viewGrow.
           repeat case_decide; congruence.
        -- rewrite child_setChild_other by assumption.
           rewrite decide_False by congruence. reflexivity.
Qed.

(** The only error [viewInsert] returns is [errDupNet], and it returns it
    exactly when the target carries an entry. *)
Lemma viewInsertFrom_error n a bit info node :
  snd (viewInsertFrom n a bit info node) =
  match entryAt (viewPath n a bit) node with
  | Some _ => Some errDupNet
  | None => None
  end.
Proof.
  destruct (entryAt (viewPath n a bit) node) as [x|] eqn:H.
  - rewrite (viewInsertFrom_dup _ _ _ _ _ _ H). reflexivity.
  - apply viewInsertFrom_fresh, H.
Qed.

(** ** What a lookup returns *)

(** Either no position on the address's path carries an entry and the
    remembered [info] comes back, or the entry of the deepest position
    that carries one does. *)
Lemma viewLookupFrom_spec a node : forall bit info,
  (viewLookupFrom a node bit info = info /\
   forall n, entryAt (viewPath n a bit) node = None) \/
  (exists n e,
      viewLookupFrom a node bit info = Some e /\
      entryAt (viewPath n a bit) node = Some e /\
      forall m, (n < m)%nat -> entryAt (viewPath m a bit) node = None).
Proof.
  induction node as [l r i IHl IHr] using viewNode_ind; intros bit info.
  assert (Hchild : child (bitSet a bit) (mkNode l r i) =
                   if bitSet a bit then r else l)
    by (unfold child; destruct (bitSet a bit); reflexivity).
  assert (Hdeep : forall next info',
    (if bitSet a bit then r else l) = Some next ->
    (viewLookupFrom a next (Z.shiftr bit 1) info' = info' /\
     forall n, entryAt (viewPath n a (Z.shiftr bit 1)) next = None) \/
    (exists n e,
        viewLookupFrom a next (Z.shiftr bit 1) info' = Some e /\
        entryAt (viewPath n a (Z.shiftr bit 1)) next = Some e /\
        forall m, (n < m)%nat ->
                  entryAt (viewPath m a (Z.shiftr bit 1)) next = None)).
  { intros next info' Hn. destruct (bitSet a bit); eauto. }
  simpl. destruct (if bitSet a bit then r else l) as [next|] eqn:Hsel.
  - destruct (Hdeep next (match i with Some x => Some x | None => info end)
                eq_refl) as [[Hres Hnone]|(n & e & Hres & Hat & Hbelow)].
    + destruct i as [x|].
      * right. exists O, x. split; [assumption|]. split; [reflexivity|].
        intros [|m] Hm; [lia|]. simpl.
        rewrite entryAt_cons, Hchild. apply Hnone.
      * left. split; [assumption|].
        intros [|n]; [reflexivity|]. simpl.
        rewrite entryAt_cons, Hchild. apply Hnone.
    + right. exists (S n), e. split; [assumption|]. split.
      * simpl. rewrite entryAt_cons, Hchild. assumption.
      * intros [|m] Hm; [lia|]. simpl.
        rewrite entryAt_cons, Hchild. apply Hbelow. lia.
  - destruct i as [x|].
    + right. exists O, x. repeat split.
      intros [|m] Hm; [lia|]. simpl.
      rewrite entryAt_cons, Hchild. reflexivity.
    + left. split; [reflexivity|].
      intros [|n]; [reflexivity|]. simpl.
      rewrite entryAt_cons, Hchild. reflexivity.
Qed.

(** ** The trie left by a sequence of insertions *)

(** The creation loop builds the chain [viewGrow]. *)
Lemma viewInsertCreate_grow mask a info : forall bit trail,
  viewPlug (fst (viewInsertCreate mask a bit trail emptyNode))
           (setVinfo (snd (viewInsertCreate mask a bit trail emptyNode)) info)
  = viewPlug trail (viewGrow mask a bit info).
Proof.
  induction mask as [|mask IH]; intros bit trail; simpl; [reflexivity|].
  rewrite IH. reflexivity.
Qed.

(** The outcome of the two loops started at [node], in terms of the
    recursion: an error and nothing written, or the tree around the
    rewritten subtree. *)
Lemma viewInsertWalk_from mask a info : forall bit trail node x,
  let s := viewInsertWalk mask a bit trail node (Some x) in
  let new :=
    match isNext s with
    | Some _ =>
        match vinfo (isNode s) with
        | Some _ => None
        | None => Some (viewPlug (isTrail s) (setVinfo (isNode s) info))
        end
    | None =>
        Some (viewPlug
                (fst (viewInsertCreate (isMask s) a (isBit s) (isTrail s)
                        (isNode s)))
                (setVinfo
                   (snd (viewInsertCreate (isMask s) a (isBit s) (isTrail s)
                           (isNode s))) info))
    end in
  new = match snd (viewInsertFrom mask a bit info node) with
        | Some _ => None
        | None => Some (viewPlug trail (fst (viewInsertFrom mask a bit info node)))
        end.
Proof.
  induction mask as [|mask IH]; intros bit trail node x; cbv zeta.
  - simpl. destruct (vinfo node); reflexivity.
  - simpl. destruct (child (bitSet a bit) node) as [n|] eqn:Hc.
    + specialize (IH (Z.shiftr bit 1) ((bitSet a bit, node) :: trail) n n).
      cbv zeta in IH. rewrite IH.
      destruct (viewInsertFrom mask a (Z.shiftr bit 1) info n) as [n' err].
      simpl. destruct err; reflexivity.
    + simpl. rewrite viewInsertCreate_grow. reflexivity.
Qed.

(** [viewInsert] is the recursion [viewInsertFrom] at the root. *)
Lemma viewInsert_recursive v a mask info :
  viewInsert v a mask info =
  (withRoot v (fst (viewInsertFrom (Z.to_nat mask) a topBit info (root v))),
   snd (viewInsertFrom (Z.to_nat mask) a topBit info (root v))).
Proof.
  pose proof (viewInsertWalk_from (Z.to_nat mask) a info topBit []
                (root v) (root v)) as H.
  cbv zeta in H. unfold viewInsert.
  pose proof (viewInsertFrom_error (Z.to_nat mask) a topBit info (root v))
    as Herr.
  destruct (entryAt (viewPath (Z.to_nat mask) a topBit) (root v)) as [e|]
    eqn:He.
  - rewrite (viewInsertFrom_dup _ _ _ info _ _ He) in *. simpl in *.
    destruct (isNext _).
    + destruct (vinfo (isNode _)); [|discriminate].
      unfold withRoot. destruct v; reflexivity.
    + discriminate.
  - rewrite Herr in *. simpl in H.
    destruct (isNext _).
    + destruct (vinfo (isNode _)); [discriminate|].
      injection H as ->. reflexivity.
    + destruct (viewInsertCreate _ _ _ _ _) as [trail node]. simpl in H.
      injection H as ->. reflexivity.
Qed.

Lemma root_viewInsert v a mask info :
  root (fst (viewInsert v a mask info)) =
  fst (viewInsertFrom (Z.to_nat mask) a topBit info (root v)).
Proof. rewrite viewInsert_recursive. reflexivity. Qed.

Lemma snd_viewInsert v a mask info :
  snd (viewInsert v a mask info) =
  snd (viewInsertFrom (Z.to_nat mask) a topBit info (root v)).
Proof. rewrite viewInsert_recursive. reflexivity. Qed.

(** [viewInsert] reports [errDupNet] exactly when its target carries an
    entry, and no other error. *)
Lemma viewInsert_error v a mask info :
  snd (viewInsert v a mask info) =
  match entryAt (targetOf a mask) (root v) with
  | Some _ => Some errDupNet
  | None => None
  end.
Proof. rewrite snd_viewInsert. apply viewInsertFrom_error. Qed.

(** A call that reports an error returns the [View] it was given. *)
Lemma viewInsert_dup_same v a mask info x :
  entryAt (targetOf a mask) (root v) = Some x ->
  viewInsert v a mask info = (v, Some errDupNet).
Proof.
  intros H. rewrite viewInsert_recursive. unfold targetOf in H.
  rewrite (viewInsertFrom_dup _ _ _ _ _ _ H). destruct v; reflexivity.
Qed.

Lemma build_snoc ops op :
  build (ops ++ [op]) = fst (viewInsertOp (build ops) op).
Proof. unfold build. rewrite fold_left_app. reflexivity. Qed.

Lemma firstAt_snoc ops op q :
  firstAt (ops ++ [op]) q =
  match firstAt ops q with
  | Some e => Some e
  | None => if decide (insTarget op = q) then Some (insEntry op) else None
  end.
Proof.
  induction ops as [|op' ops IH]; simpl; [reflexivity|].
  destruct (decide (insTarget op' = q)); [reflexivity|apply IH].
Qed.

(** Every position of the trie carries the entry of the earliest call
    that targeted it. *)
Lemma entryAt_build ops q :
  entryAt q (root (build ops)) = firstAt ops q.
Proof.
  induction ops as [|op ops IH] using rev_ind.
  - apply entryAt_emptyNode.
  - rewrite build_snoc, firstAt_snoc. unfold viewInsertOp.
    rewrite root_viewInsert.
    destruct (entryAt (insTarget op) (root (build ops))) as [x|] eqn:Ht.
    + unfold insTarget, targetOf in Ht.
      rewrite (viewInsertFrom_dup _ _ _ _ _ _ Ht). simpl. rewrite IH.
      destruct (firstAt ops q) eqn:Hq; [reflexivity|].
      case_decide as Heq; [|reflexivity].
      subst q. unfold insTarget, targetOf in IH. congruence.
    + unfold insTarget, targetOf in Ht.
      destruct (viewInsertFrom_fresh _ _ _ (Some (insEntry op)) _ Ht)
        as [_ Hq].
      rewrite Hq, IH. unfold insTarget, targetOf.
      case_decide as Heq.
      * subst q. rewrite <- IH, Ht. rewrite decide_True; reflexivity.
      * rewrite decide_False by congruence.
        destruct (firstAt ops q); reflexivity.
Qed.

Lemma firstAt_None ops q :
  firstAt ops q = None <-> forall op, op ∈ ops -> insTarget op <> q.
Proof.
  induction ops as [|op ops IH]; simpl.
  - split; [|reflexivity]. intros _ op Hin. inversion Hin.
  - case_decide as Heq.
    + split; [discriminate|]. intros H. exfalso.
      apply (H op); [left|assumption].
    + rewrite IH. split.
      * intros H op' Hin. apply elem_of_cons in Hin as [->|Hin]; auto.
      * intros H op' Hin. apply H. right. assumption.
Qed.

(** ** Bits selected by the walks *)

Lemma topBit_pow2 : topBit = 2 ^ 31.
Proof. reflexivity. Qed.

(** After [k] shifts [bit] is [2^(31-k)], and 0 once the 32 bits are
    used up. *)
Lemma shiftr_topBit k :
  0 <= k -> Z.shiftr topBit k = if k <=? 31 then 2 ^ (31 - k) else 0.
Proof.
  intros Hk. rewrite Z.shiftr_div_pow2, topBit_pow2 by assumption.
  destruct (Z.leb_spec k 31).
  - rewrite Z.pow_sub_r by lia. reflexivity.
  - apply Z.div_small. split; [lia|]. apply Z.pow_lt_mono_r; lia.
Qed.

Lemma land_pow2 a k :
  0 <= k -> Z.land a (2 ^ k) = if Z.testbit a k then 2 ^ k else 0.
Proof.
  intros Hk. apply Z.bits_inj'. intros n Hn.
  rewrite Z.land_spec, Z.pow2_bits_eqb by assumption.
  destruct (Z.eqb_spec k n) as [->|Hne].
  - destruct (Z.testbit a n); simpl.
    + rewrite Z.pow2_bits_eqb, Z.eqb_refl by assumption. reflexivity.
    + rewrite Z.bits_0. reflexivity.
  - rewrite andb_false_r.
    destruct (Z.testbit a k).
    + rewrite Z.pow2_bits_eqb by assumption.
      symmetry. apply Z.eqb_neq. assumption.
    + rewrite Z.bits_0. reflexivity.
Qed.

(** Round [k] of a walk tests bit [31-k] of the address; from round 32 on
    the test is always false. *)
Lemma bitSet_shiftr a k :
  0 <= k -> bitSet a (Z.shiftr topBit k) = Z.testbit a (31 - k).
Proof.
  intros Hk. unfold bitSet. rewrite shiftr_topBit by assumption.
  destruct (Z.leb_spec k 31).
  - rewrite land_pow2 by lia. destruct (Z.testbit a (31 - k)); simpl.
    + destruct (Z.eqb_spec (2 ^ (31 - k)) 0) as [H0|]; [|reflexivity].
      assert (0 < 2 ^ (31 - k)) by (apply Z.pow_pos_nonneg; lia). lia.
    + reflexivity.
  - rewrite Z.land_0_r. simpl. symmetry. apply Z.testbit_neg_r. lia.
Qed.

Lemma shiftr_shiftr_topBit k :
  0 <= k -> Z.shiftr (Z.shiftr topBit k) 1 = Z.shiftr topBit (k + 1).
Proof. intros Hk. apply Z.shiftr_shiftr. lia. Qed.

(** Two addresses take the same sides for [n] rounds exactly when the
    bits those rounds test agree. *)
Lemma viewPath_eq_bits n a b : forall s : nat,
  viewPath n a (Z.shiftr topBit (Z.of_nat s)) =
  viewPath n b (Z.shiftr topBit (Z.of_nat s)) <->
  forallb (fun i : nat =>
             Bool.eqb (Z.testbit a (31 - Z.of_nat i))
                      (Z.testbit b (31 - Z.of_nat i)))
          (seq s n) = true.
Proof.
  induction n as [|n IH]; intros s; simpl; [tauto|].
  rewrite shiftr_shiftr_topBit by lia.
  replace (Z.of_nat s + 1) with (Z.of_nat (S s)) by lia.
  rewrite !bitSet_shiftr by lia.
  rewrite andb_true_iff, <- IH, eqb_true_iff.
  split.
  - intros H. injection H as H1 H2. split; assumption.
  - intros [H1 H2]. rewrite H1, H2. reflexivity.
Qed.

Lemma prefixMatch_path a len b :
  prefixMatch a len b = true <->
  viewPath (Z.to_nat len) a topBit = viewPath (Z.to_nat len) b topBit.
Proof.
  unfold prefixMatch. rewrite <- (viewPath_eq_bits _ a b 0).
  rewrite Z.shiftr_0_r. reflexivity.
Qed.

(** An insertion targets the position at depth [m] on the path of [A]
    exactly when its length is [m] and its prefix contains [A]. *)
Lemma insTarget_path op A m :
  insTarget op = viewPath m A topBit <->
  Z.to_nat (insLen op) = m /\ matches A op = true.
Proof.
  unfold insTarget, targetOf, matches. rewrite prefixMatch_path. split.
  - intros H. assert (Hlen : Z.to_nat (insLen op) = m).
    { apply (f_equal length) in H. rewrite !viewPath_length in H. exact H. }
    split; [assumption|]. rewrite Hlen at 2. exact H.
  - intros [<- H]. exact H.
Qed.

(** ** The longest-prefix rule *)

Lemma firstAt_Some ops q e :
  firstAt ops q = Some e ->
  exists op, op ∈ ops /\ insTarget op = q /\ insEntry op = e.
Proof.
  induction ops as [|op ops IH]; simpl; [discriminate|].
  case_decide as Heq.
  - intros [= <-]. exists op. split; [left|auto].
  - intros H. destruct (IH H) as (op' & Hin & Ht & He).
    exists op'. split; [right; assumption|auto].
Qed.

Lemma maxLen_nonneg ops : 0 <= maxLen ops.
Proof. induction ops; unfold maxLen in *; simpl; lia. Qed.

Lemma maxLen_ge ops op : op ∈ ops -> insLen op <= maxLen ops.
Proof.
  induction 1 as [op ops|op op' ops _ IH]; unfold maxLen in *; simpl; lia.
Qed.

Lemma maxLen_attained ops :
  ops <> [] -> Forall (fun op => 0 <= insLen op) ops ->
  exists op, op ∈ ops /\ insLen op = maxLen ops.
Proof.
  induction ops as [|op ops IH]; [congruence|]. intros _ Hall.
  apply Forall_cons in Hall as [Hop Hall].
  destruct (Z_le_gt_dec (maxLen ops) (insLen op)) as [Hle|Hgt].
  - exists op. split; [left|]. unfold maxLen in *; simpl. lia.
  - destruct ops as [|op' ops].
    + unfold maxLen in Hgt; simpl in Hgt. lia.
    + destruct (IH ltac:(congruence) Hall) as (m & Hin & Hm).
      exists m. split; [right; assumption|].
      rewrite Hm. unfold maxLen in *; simpl in *. lia.
Qed.

Lemma matching_cons op ops A :
  matching (op :: ops) A =
  if matches A op then op :: matching ops A else matching ops A.
Proof.
  unfold matching. rewrite filter_cons.
  case_decide as H; [rewrite H|apply not_true_is_false in H; rewrite H];
    reflexivity.
Qed.

Lemma elem_of_matching op ops A :
  op ∈ matching ops A <-> matches A op = true /\ op ∈ ops.
Proof. unfold matching. rewrite list_elem_of_filter. reflexivity. Qed.

(** Among the insertions that contain [A], the earliest one of length
    [n] is the earliest one that targets depth [n] on the path of [A]. *)
Lemma head_matching_firstAt ops A (n : nat) :
  Forall (fun op => 0 <= insLen op) ops ->
  insEntry <$> head (filter (fun op => insLen op = Z.of_nat n)
                            (matching ops A)) =
  firstAt ops (viewPath n A topBit).
Proof.
  induction 1 as [|op ops Hop _ IH]; [reflexivity|].
  rewrite matching_cons. simpl.
  destruct (matches A op) eqn:Hm.
  - rewrite filter_cons. case_decide as Hlen.
    + rewrite decide_True; [reflexivity|].
      apply insTarget_path. split; [lia|assumption].
    + rewrite decide_False; [exact IH|].
      rewrite insTarget_path. intros [Hl _]. lia.
  - rewrite decide_False; [exact IH|].
    rewrite insTarget_path. intros [_ Hm']. congruence.
Qed.

(** The lookup loop computes the rule [bestMatch]. *)
Lemma viewLookup_bestMatch ops A :
  Forall (fun op => 0 <= insLen op) ops ->
  viewLookup (build ops) A = bestMatch ops A.
Proof.
  intros Hall. unfold viewLookup, bestMatch.
  destruct (viewLookupFrom_spec A (root (build ops)) topBit None)
    as [[Hres Hnone]|(n & e & Hres & Hat & Hbelow)]; rewrite Hres.
  - assert (Hempty : matching ops A = []).
    { apply elem_of_nil_inv. intros op Hin.
      apply elem_of_matching in Hin as [Hm Hin].
      specialize (Hnone (Z.to_nat (insLen op))).
      rewrite entryAt_build in Hnone.
      apply (proj1 (firstAt_None _ _) Hnone op Hin).
      apply insTarget_path. split; [reflexivity|assumption]. }
    rewrite Hempty. reflexivity.
  - rewrite entryAt_build in Hat.
    assert (Hms : Forall (fun op => 0 <= insLen op) (matching ops A)).
    { apply Forall_forall. intros op Hin.
      apply elem_of_matching in Hin as [_ Hin].
      revert op Hin. apply Forall_forall. assumption. }
    assert (Hmax : maxLen (matching ops A) = Z.of_nat n).
    { destruct (firstAt_Some _ _ _ Hat) as (op & Hin & Ht & _).
      apply insTarget_path in Ht as [Hlen Hm].
      assert (Hop : op ∈ matching ops A) by (apply elem_of_matching; auto).
      pose proof (proj1 (Forall_forall _ _) Hall op Hin) as Hnn.
      simpl in Hnn.
      pose proof (maxLen_ge _ _ Hop) as Hge.
      destruct (maxLen_attained (matching ops A)) as (top & Htop & Hlt).
      { intros Hnil. rewrite Hnil in Hop. inversion Hop. }
      { assumption. }
      destruct (Nat.le_gt_cases (Z.to_nat (insLen top)) n) as [Hle|Hgt];
        [lia|].
      exfalso. apply elem_of_matching in Htop as [Hmt Hint].
      specialize (Hbelow _ Hgt). rewrite entryAt_build in Hbelow.
      apply (proj1 (firstAt_None _ _) Hbelow top Hint).
      apply insTarget_path. split; [reflexivity|assumption]. }
    rewrite Hmax, head_matching_firstAt by assumption.
    symmetry. exact Hat.
Qed.

(** What [bestMatch] denotes: an insertion that contains [A] and is at
    least as long as every other one that does. *)
Lemma bestMatch_Some ops A e :
  bestMatch ops A = Some e ->
  exists op, op ∈ ops /\ insEntry op = e /\ matches A op = true /\
             forall op', op' ∈ ops -> matches A op' = true ->
                         insLen op' <= insLen op.
Proof.
  unfold bestMatch. intros H.
  destruct (head _) as [op|] eqn:Hh; [|discriminate].
  injection H as <-. apply head_Some_elem_of in Hh.
  apply list_elem_of_filter in Hh as [Hlen Hin].
  apply elem_of_matching in Hin as [Hm Hin].
  exists op. repeat split; try assumption.
  intros op' Hin' Hm'. rewrite Hlen. apply maxLen_ge.
  apply elem_of_matching. auto.
Qed.

Lemma bestMatch_None ops A :
  Forall (fun op => 0 <= insLen op) ops ->
  bestMatch ops A = None <-> forall op, op ∈ ops -> matches A op = false.
Proof.
  intros Hall. unfold bestMatch. rewrite fmap_None, head_None. split.
  - intros Hnil op Hin. destruct (matches A op) eqn:Hm; [|reflexivity].
    exfalso.
    assert (Hop : op ∈ matching ops A) by (apply elem_of_matching; auto).
    destruct (maxLen_attained (matching ops A)) as (top & Htop & Hlt).
    { intros E. rewrite E in Hop. inversion Hop. }
    { apply Forall_forall. intros x Hx.
      apply elem_of_matching in Hx as [_ Hx].
      revert x Hx. apply Forall_forall. assumption. }
    assert (Hf : top ∈ filter
                   (fun op => insLen op = maxLen (matching ops A))
                   (matching ops A))
      by (apply list_elem_of_filter; auto).
    rewrite Hnil in Hf. inversion Hf.
  - intros Hno.
    assert (Hempty : matching ops A = []).
    { apply elem_of_nil_inv. intros op Hin.
      apply elem_of_matching in Hin as [Hm Hin].
      rewrite (Hno op Hin) in Hm. discriminate. }
    rewrite Hempty. reflexivity.
Qed.

Lemma matches_samePrefix A op op' :
  matches A op = true -> matches A op' = true ->
  insLen op = insLen op' -> samePrefix op op'.
Proof.
  unfold matches, samePrefix. intros H H' Hlen. split; [assumption|].
  apply prefixMatch_path. apply prefixMatch_path in H, H'.
  rewrite Hlen in *. congruence.
Qed.

(** ** The parsers on sample inputs *)

Example Atoi_samples :
  Atoi "256" = Some 256 /\ Atoi "-1" = Some (-1) /\ Atoi "+7" = Some 7 /\
  Atoi "a" = None /\ Atoi "" = None /\ Atoi "+" = None /\ Atoi "1_0" = None /\
  Atoi "9223372036854775807" = Some maxInt /\
  Atoi "9223372036854775808" = None /\
  Atoi "-9223372036854775808" = Some minInt.
Proof. vm_compute. repeat split. Qed.

Example bytesSplit_samples :
  bytesSplit "1.2..3." "." = ["1"; "2"; ""; "3"; ""]%string /\
  bytesSplit "" "." = [""]%string /\
  bytesSplit "10.0.0.0/8" "/" = ["10.0.0.0"; "8"]%string.
Proof. repeat split. Qed.

(** Loading a subnet truncates its octets in the same way, and drops the
    error of a duplicate. *)
Example viewSubnet_samples :
  viewSubnet New "266.0.0.0/8" "A" =
    (fst (viewInsert New 0x0A000000 8
            (Some (mkViewInfo "A" "266.0.0.0/8"))), None) /\
  viewSubnet (build [nestOuter]) "10.0.0.0/8" "C" = (build [nestOuter], None) /\
  viewSubnet New "10.0.0/8" "A" = (New, Some errBadSubnet).
Proof. vm_compute. repeat split. Qed.

(** * The claims *)

(** ** C1: longest match *)

(** C1, as stated, fails.  The calls [10.0.0.1/8 -> a] and [10.0.0.2/8 -> b]
    have distinct (address, prefixLength) pairs and lengths within 0..32,
    yet they target the same node: the second call returns [errDupNet],
    and a lookup of 10.0.0.2 returns [a], not the entry [b] of the
    insertion [10.0.0.2/8], which contains the address and is as long as
    any insertion that does. *)
Lemma C1_distinct_pairs_counterexample :
  let ops := [dupFirst; dupSecond] in
  let A := 0x0A000002 in
  NoDup ((fun op => (insAddr op, insLen op)) <$> ops) /\
  Forall (fun op => 0 <= insLen op <= 32) ops /\
  0 <= A < 2 ^ 32 /\
  dupSecond ∈ ops /\
  matches A dupSecond = true /\
  (forall op, op ∈ ops -> matches A op = true ->
              insLen op <= insLen dupSecond) /\
  snd (viewInsertOp (build [dupFirst]) dupSecond) = Some errDupNet /\
  viewLookup (build ops) A = Some (insEntry dupFirst) /\
  viewLookup (build ops) A <> Some (insEntry dupSecond).
Proof.
  cbv zeta. split; [|split; [|split; [|split; [|split; [|split]]]]].
  - apply NoDup_cons. split.
    + intros Hin. apply list_elem_of_singleton in Hin. discriminate.
    + apply NoDup_singleton.
  - repeat constructor; cbn; lia.
  - lia.
  - right. left.
  - vm_compute. reflexivity.
  - intros op Hin _.
    apply elem_of_cons in Hin as [->|Hin]; [cbn; lia|].
    apply list_elem_of_singleton in Hin as ->. cbn; lia.
  - split; [|split]; [vm_compute; reflexivity ..|].
    vm_compute. discriminate.
Qed.

(** C1, amended: for a trie built from [New()] by insertions with
    lengths in 0..32 that name pairwise distinct prefixes (no two with the
    same length and the same leading bits), a lookup returns the entry of
    the insertion of greatest length among those whose leading bits are
    those of the address; it returns no entry exactly when no insertion
    contains the address.  Distinct or not, what a lookup returns is the
    entry of the earliest call among the calls of greatest length that
    contain the address ([bestMatch]), which is the entry of an insertion
    that contains the address and is as long as any that does. *)
Theorem C1_lookup_longest_prefix ops A
  (Hlen : Forall (fun op => 0 <= insLen op <= 32) ops) :
  (prefixesDistinct ops ->
   forall op, op ∈ ops -> matches A op = true ->
     (forall op', op' ∈ ops -> matches A op' = true ->
                  insLen op' <= insLen op) ->
     viewLookup (build ops) A = Some (insEntry op)) /\
  (viewLookup (build ops) A = None <->
   forall op, op ∈ ops -> matches A op = false) /\
  viewLookup (build ops) A = bestMatch ops A /\
  (forall e, viewLookup (build ops) A = Some e ->
     exists op, op ∈ ops /\ insEntry op = e /\ matches A op = true /\
                forall op', op' ∈ ops -> matches A op' = true ->
                            insLen op' <= insLen op).
Proof.
  assert (Hnn : Forall (fun op => 0 <= insLen op) ops).
  { eapply Forall_impl; [exact Hlen|]. simpl. intros; lia. }
  pose proof (viewLookup_bestMatch ops A Hnn) as Hbest.
  split; [|split; [|split]].
  - intros Hdist op Hin Hm Hmax. rewrite Hbest.
    destruct (bestMatch ops A) as [e|] eqn:Hb.
    + destruct (bestMatch_Some _ _ _ Hb) as (op' & Hin' & He & Hm' & Hmax').
      assert (Hsame : samePrefix op op').
      { apply (matches_samePrefix A); try assumption.
        pose proof (Hmax _ Hin' Hm'). pose proof (Hmax' _ Hin Hm). lia. }
      apply list_elem_of_lookup in Hin as [i Hi].
      apply list_elem_of_lookup in Hin' as [j Hj].
      pose proof (Hdist _ _ _ _ Hi Hj Hsame) as ->.
      congruence.
    + rewrite (proj1 (bestMatch_None _ _ Hnn) Hb op Hin) in Hm.
      discriminate.
  - rewrite Hbest. apply bestMatch_None; assumption.
  - assumption.
  - intros e He. rewrite Hbest in He. apply bestMatch_Some, He.
Qed.

Lemma C1_lookup_longest_prefix_witness :
  Forall (fun op => 0 <= insLen op <= 32) [nestOuter; nestInner] /\
  prefixesDistinct [nestOuter; nestInner] /\
  viewLookup (build [nestOuter; nestInner]) 0x0A010203 =
    Some (insEntry nestInner).
Proof.
  assert (H : Forall (fun op => 0 <= insLen op <= 32) [nestOuter; nestInner])
    by (repeat constructor; cbn; lia).
  assert (D : prefixesDistinct [nestOuter; nestInner]).
  { intros [|[|i]] [|[|j]] op op' Hi Hj [Hl _]; try reflexivity;
      try discriminate Hi; try discriminate Hj;
      injection Hi as <-; injection Hj as <-; discriminate Hl. }
  split; [exact H|]. split; [exact D|].
  apply (proj1
    (C1_lookup_longest_prefix [nestOuter; nestInner] 0x0A010203 H) D).
  - right. left.
  - reflexivity.
  - intros op' Hin _.
    apply elem_of_cons in Hin as [->|Hin]; [cbn; lia|].
    apply list_elem_of_singleton in Hin as ->. cbn; lia.
Defined.

(** ** C2: the default entry *)

(** C2: on a fresh trie an insertion of length 0 returns no error and
    leaves its entry on the root, whatever the address; after the single
    insertion [(0, 0, e)] every lookup returns [e]. *)
Theorem C2_default_catch_all (e : ViewInfo) (a A : Z) :
  viewInsert New a 0 (Some e) =
    (mkView (mkNode None None (Some e)) (fileName New) (lineNum New), None) /\
  viewLookup (build [(0, 0, e)]) A = Some e.
Proof.
  split; [reflexivity|].
  change (build [(0, 0, e)])
    with (mkView (mkNode None None (Some e)) (fileName New) (lineNum New)).
  unfold viewLookup; simpl.
  destruct (bitSet A topBit); reflexivity.
Qed.

(** ** C3: duplicate subnets *)

Lemma firstAt_split ops q e :
  firstAt ops q = Some e ->
  exists ops1 op ops2,
    ops = ops1 ++ op :: ops2 /\ insTarget op = q /\ insEntry op = e /\
    firstAt ops1 q = None.
Proof.
  induction ops as [|op ops IH]; simpl; [discriminate|].
  case_decide as Heq.
  - intros [= <-]. exists [], op, ops. auto.
  - intros H. destruct (IH H) as (ops1 & op' & ops2 & -> & Ht & He & Hn).
    exists (op :: ops1), op', ops2. repeat split; try assumption.
    simpl. rewrite decide_False by assumption. assumption.
Qed.

Lemma entryAt_nodeAt p node :
  entryAt p node <> None <->
  exists n, nodeAt p node = Some n /\ vinfo n <> None.
Proof.
  unfold entryAt. destruct (nodeAt p node) as [n|]; split.
  - intros H. exists n. auto.
  - intros (n' & [= <-] & H). assumption.
  - congruence.
  - intros (n' & Hn & _). discriminate.
Qed.

(** C3: on a trie built by insertions, [viewInsert] returns [errDupNet]
    exactly when the node at depth [mask] on the bit path of the address
    exists and carries an entry, which is exactly when an earlier call that
    returned no error targeted that node; the failing call returns the
    trie it was given, where the node still carries the entry of the
    earliest call that targeted it; a call that does not fail returns no
    error and leaves its entry on the node.  So inserting
    [10.0.0.0/24 -> a] and then [10.0.0.0/24 -> b] fails the second time
    and the entry stays [a]. *)
Theorem C3_duplicate_subnet :
  (forall (ops : list insertion) (a mask : Z) (e : ViewInfo),
      let v := build ops in
      let res := viewInsert v a mask (Some e) in
      (snd res = Some errDupNet <->
       exists node, nodeAt (targetOf a mask) (root v) = Some node /\
                    vinfo node <> None) /\
      (snd res = Some errDupNet <->
       exists ops1 op ops2,
         ops = ops1 ++ op :: ops2 /\
         snd (viewInsertOp (build ops1) op) = None /\
         insTarget op = targetOf a mask) /\
      (snd res = Some errDupNet ->
       fst res = v /\
       exists op, op ∈ ops /\ insTarget op = targetOf a mask /\
                  entryAt (targetOf a mask) (root (fst res)) =
                  Some (insEntry op)) /\
      (snd res <> Some errDupNet ->
       snd res = None /\
       entryAt (targetOf a mask) (root (fst res)) = Some e)) /\
  (let first := viewInsert New 0x0A000000 24 (Some (mkViewInfo "a" "10.0.0.0/24")) in
   let second :=
     viewInsert (fst first) 0x0A000000 24 (Some (mkViewInfo "b" "10.0.0.0/24")) in
   snd first = None /\
   second = (fst first, Some errDupNet) /\
   entryAt (targetOf 0x0A000000 24) (root (fst second)) =
     Some (mkViewInfo "a" "10.0.0.0/24") /\
   viewLookup (fst second) 0x0A000005 = Some (mkViewInfo "a" "10.0.0.0/24")).
Proof.
  split; [|vm_compute; repeat split].
  intros ops a mask e. cbv zeta.
  assert (Herr : snd (viewInsert (build ops) a mask (Some e)) =
                 Some errDupNet <->
                 entryAt (targetOf a mask) (root (build ops)) <> None).
  { rewrite viewInsert_error.
    destruct (entryAt (targetOf a mask) (root (build ops))); split;
      congruence. }
  split; [|split; [|split]].
  - rewrite Herr. apply entryAt_nodeAt.
  - rewrite Herr, entryAt_build. split.
    + destruct (firstAt ops (targetOf a mask)) as [x|] eqn:Hx; [|congruence].
      intros _.
      destruct (firstAt_split _ _ _ Hx) as (ops1 & op & ops2 & E & Ht & _ & Hn).
      exists ops1, op, ops2. repeat split; try assumption.
      unfold viewInsertOp. rewrite viewInsert_error.
      fold (insTarget op). rewrite Ht, entryAt_build, Hn. reflexivity.
    + intros (ops1 & op & ops2 & -> & _ & Ht) Hnone.
      apply (proj1 (firstAt_None _ _) Hnone op); [|assumption].
      apply elem_of_app. right. left.
  - intros Hdup. apply Herr in Hdup.
    destruct (entryAt (targetOf a mask) (root (build ops))) as [x|] eqn:Hx;
      [|congruence].
    rewrite (viewInsert_dup_same _ _ _ _ _ Hx). simpl.
    split; [reflexivity|].
    rewrite entryAt_build in Hx.
    destruct (firstAt_Some _ _ _ Hx) as (op & Hin & Ht & He).
    exists op. rewrite entryAt_build, Hx, He. auto.
  - intros Hok.
    destruct (entryAt (targetOf a mask) (root (build ops))) as [x|] eqn:Hx.
    + exfalso. apply Hok, Herr. congruence.
    + rewrite snd_viewInsert, root_viewInsert.
      destruct (viewInsertFrom_fresh _ _ _ (Some e) _ Hx) as [Hs Hq].
      split; [assumption|].
      unfold targetOf at 1. rewrite Hq.
      rewrite decide_True; reflexivity.
Qed.

(** ** C4: a failed insertion changes nothing *)

(** C4: a call of [viewInsert] that returns an error returns
    [errDupNet] and the [View] it was given, root, children and entries
    included, so every lookup answers as before. *)
Theorem C4_failed_insert_unchanged (v : View) (a mask : Z)
    (info : option ViewInfo) (err : error) :
  snd (viewInsert v a mask info) = Some err ->
  err = errDupNet /\
  fst (viewInsert v a mask info) = v /\
  forall A, viewLookup (fst (viewInsert v a mask info)) A = viewLookup v A.
Proof.
  rewrite viewInsert_error.
  destruct (entryAt (targetOf a mask) (root v)) as [x|] eqn:Hx;
    [|discriminate].
  intros [= <-]. rewrite (viewInsert_dup_same _ _ _ _ _ Hx). auto.
Qed.

Lemma C4_failed_insert_unchanged_witness :
  snd (viewInsertOp (build [dupFirst]) dupSecond) = Some errDupNet /\
  fst (viewInsertOp (build [dupFirst]) dupSecond) = build [dupFirst].
Proof.
  assert (H : snd (viewInsertOp (build [dupFirst]) dupSecond) =
              Some errDupNet) by (vm_compute; reflexivity).
  split; [exact H|].
  exact (proj1 (proj2
    (C4_failed_insert_unchanged (build [dupFirst]) (insAddr dupSecond)
       (insLen dupSecond) (Some (insEntry dupSecond)) errDupNet H))).
Defined.

(** ** C5: nested prefixes *)

(** Of two insertions of different lengths the rule picks the longer
    when it contains the address, else the shorter when that does. *)
Lemma bestMatch_pair op1 op2 A ops :
  0 <= insLen op1 < insLen op2 ->
  ops = [op1; op2] \/ ops = [op2; op1] ->
  bestMatch ops A =
  if matches A op2 then Some (insEntry op2)
  else if matches A op1 then Some (insEntry op1) else None.
Proof.
  intros Hlen [-> | ->]; unfold bestMatch; rewrite !matching_cons;
    destruct (matches A op1), (matches A op2);
    unfold matching; rewrite ?filter_nil;
    unfold maxLen; simpl; rewrite ?filter_cons, ?filter_nil;
    repeat case_decide; try lia; reflexivity.
Qed.

(** C5: on a fresh trie, two insertions of different lengths both return
    no error in either order, the shorter being a prefix of the longer or
    not; both entries stay in place, and a lookup returns the entry of the
    longer when it contains the address, else that of the shorter when that
    one does, else nothing.  After [10.0.0.0/8 -> A] and
    [10.1.0.0/16 -> B] a lookup of 10.1.2.3 returns [B], of 10.2.2.3
    returns [A] and of 11.0.0.0 returns nothing. *)
Theorem C5_nested_prefixes :
  (forall op1 op2,
      0 <= insLen op1 < insLen op2 ->
      snd (viewInsertOp New op1) = None /\
      snd (viewInsertOp (build [op1]) op2) = None /\
      snd (viewInsertOp New op2) = None /\
      snd (viewInsertOp (build [op2]) op1) = None /\
      forall ops, ops = [op1; op2] \/ ops = [op2; op1] ->
        entryAt (insTarget op1) (root (build ops)) = Some (insEntry op1) /\
        entryAt (insTarget op2) (root (build ops)) = Some (insEntry op2) /\
        forall A, viewLookup (build ops) A =
                  if matches A op2 then Some (insEntry op2)
                  else if matches A op1 then Some (insEntry op1) else None) /\
  snd (viewInsertOp New nestOuter) = None /\
  snd (viewInsertOp (build [nestOuter]) nestInner) = None /\
  viewLookup (build [nestOuter; nestInner]) 0x0A010203 =
    Some (mkViewInfo "B" "10.1.0.0/16") /\
  viewLookup (build [nestOuter; nestInner]) 0x0A020203 =
    Some (mkViewInfo "A" "10.0.0.0/8") /\
  viewLookup (build [nestOuter; nestInner]) 0x0B000000 = None.
Proof.
  split; [|vm_compute; repeat split].
  intros op1 op2 Hlen.
  assert (Hne : insTarget op1 <> insTarget op2).
  { intros E. apply (f_equal length) in E.
    unfold insTarget, targetOf in E. rewrite !viewPath_length in E. lia. }
  unfold viewInsertOp. rewrite !viewInsert_error.
  fold (insTarget op1) (insTarget op2).
  rewrite !entryAt_build. simpl.
  rewrite !(decide_False (P := insTarget op1 = insTarget op2)) by assumption.
  rewrite !(decide_False (P := insTarget op2 = insTarget op1)) by congruence.
  rewrite !entryAt_emptyNode.
  do 4 (split; [reflexivity|]).
  intros ops Hops.
  assert (Hlook : forall A, viewLookup (build ops) A =
            if matches A op2 then Some (insEntry op2)
            else if matches A op1 then Some (insEntry op1) else None).
  { intros A. rewrite viewLookup_bestMatch.
    - apply bestMatch_pair; assumption.
    - destruct Hops as [-> | ->]; repeat constructor; lia. }
  destruct Hops as [-> | ->]; rewrite !entryAt_build; simpl.
  - rewrite (decide_False (P := insTarget op1 = insTarget op2))
      by assumption.
    rewrite !decide_True; auto.
  - rewrite (decide_False (P := insTarget op2 = insTarget op1))
      by congruence.
    rewrite !decide_True; auto.
Qed.

Lemma C5_nested_prefixes_witness :
  snd (viewInsertOp New nestOuter) = None /\
  snd (viewInsertOp (build [nestOuter]) nestInner) = None.
Proof.
  assert (H : 0 <= insLen nestOuter < insLen nestInner) by (cbn; lia).
  pose proof (proj1 C5_nested_prefixes nestOuter nestInner H) as W.
  exact (conj (proj1 W) (proj1 (proj2 W))).
Defined.

(** ** C6: the lookup loop ends within 33 rounds *)

Lemma height_setChild side node next :
  (height (setChild side node next) <=
   Nat.max (height node) (S (height next)))%nat.
Proof.
  destruct node as [l r i], side; unfold setChild; simpl;
    destruct l, r; lia.
Qed.

Lemma height_child side node next :
  child side node = Some next -> (S (height next) <= height node)%nat.
Proof.
  destruct node as [l r i], side; unfold child; simpl; intros ->;
    [destruct l|destruct r]; lia.
Qed.

Lemma height_setVinfo node info : height (setVinfo node info) = height node.
Proof. destruct node; reflexivity. Qed.

Lemma height_viewGrow n a bit info : height (viewGrow n a bit info) = S n.
Proof.
  revert bit; induction n as [|n IH]; intros bit; simpl; [reflexivity|].
  specialize (IH (Z.shiftr bit 1)).
  unfold setChild, emptyNode. destruct (bitSet a bit); simpl; lia.
Qed.

(** An insertion of [n] rounds adds no node below depth [n]. *)
Lemma height_viewInsertFrom n a bit info : forall node,
  (height (fst (viewInsertFrom n a bit info node)) <=
   Nat.max (height node) (S n))%nat.
Proof.
  revert bit; induction n as [|n IH]; intros bit node; simpl.
  - destruct (vinfo node); simpl; [lia|]. rewrite height_setVinfo. lia.
  - destruct (child (bitSet a bit) node) as [next|] eqn:Hc; simpl.
    + specialize (IH (Z.shiftr bit 1) next).
      destruct (viewInsertFrom n a (Z.shiftr bit 1) info next)
        as [next' err]; simpl in *.
      pose proof (height_setChild (bitSet a bit) node next').
      pose proof (height_child _ _ _ Hc). lia.
    + pose proof (height_setChild (bitSet a bit) node
                    (viewGrow n a (Z.shiftr bit 1) info)) as H.
      rewrite height_viewGrow in H. lia.
Qed.

Lemma height_build ops :
  Forall (fun op => 0 <= insLen op <= 32) ops ->
  (height (root (build ops)) <= 33)%nat.
Proof.
  induction ops as [|op ops IH] using rev_ind; intros Hall.
  - simpl. lia.
  - apply Forall_app in Hall as [Hops Hop].
    apply Forall_cons in Hop as [Hop _].
    rewrite build_snoc. unfold viewInsertOp. rewrite root_viewInsert.
    pose proof (height_viewInsertFrom (Z.to_nat (insLen op)) (insAddr op)
                  topBit (Some (insEntry op)) (root (build ops))).
    specialize (IH Hops). lia.
Qed.

Lemma lookupRounds_height a node : forall bit,
  (1 <= lookupRounds a node bit <= height node)%nat.
Proof.
  induction node as [l r i IHl IHr] using viewNode_ind; intros bit; simpl.
  destruct (bitSet a bit).
  - destruct r as [c|]; [|destruct l; lia].
    specialize (IHr c eq_refl (Z.shiftr bit 1)). destruct l; lia.
  - destruct l as [c|]; [|destruct r; lia].
    specialize (IHl c eq_refl (Z.shiftr bit 1)). destruct r; lia.
Qed.

(** The loop entered at [node] runs [lookupRounds] rounds: before that
    many rounds [node] is not nil, after them it is, and the entry
    remembered then is the result of [viewLookupFrom]. *)
Lemma lookupRun_rounds a node : forall bit info,
  let s := mkLookupState (Some node) bit info in
  let k := lookupRounds a node bit in
  (forall j, (j < k)%nat -> lsNode (lookupRun j a s) <> None) /\
  lsNode (lookupRun k a s) = None /\
  lsInfo (lookupRun k a s) = viewLookupFrom a node bit info.
Proof.
  induction node as [l r i IHl IHr] using viewNode_ind; intros bit info.
  cbv zeta.
  assert (IH : forall next info',
    (if bitSet a bit then r else l) = Some next ->
    let s := mkLookupState (Some next) (Z.shiftr bit 1) info' in
    let k := lookupRounds a next (Z.shiftr bit 1) in
    (forall j, (j < k)%nat -> lsNode (lookupRun j a s) <> None) /\
    lsNode (lookupRun k a s) = None /\
    lsInfo (lookupRun k a s) = viewLookupFrom a next (Z.shiftr bit 1) info').
  { intros next info' Hn. destruct (bitSet a bit); eauto. }
  simpl lookupRounds. simpl viewLookupFrom.
  destruct (if bitSet a bit then r else l) as [next|] eqn:Hsel.
  - destruct (IH next (match i with Some x => Some x | None => info end)
                eq_refl) as (Hbefore & Hnil & Hinfo).
    assert (Hstep : lookupStep a (mkLookupState (Some (mkNode l r i)) bit info)
                    = mkLookupState (Some next) (Z.shiftr bit 1)
                        (match i with Some x => Some x | None => info end)).
    { unfold lookupStep, child; simpl. destruct (bitSet a bit);
        rewrite Hsel; reflexivity. }
    split; [|split].
    + intros [|j] Hj; [discriminate|]. simpl lookupRun. rewrite Hstep.
      apply Hbefore. lia.
    + simpl lookupRun. rewrite Hstep. assumption.
    + simpl lookupRun. rewrite Hstep. assumption.
  - assert (Hstep : lookupStep a (mkLookupState (Some (mkNode l r i)) bit info)
                    = mkLookupState None (Z.shiftr bit 1)
                        (match i with Some x => Some x | None => info end)).
    { unfold lookupStep, child; simpl. destruct (bitSet a bit);
        rewrite Hsel; reflexivity. }
    split; [|split].
    + intros [|j] Hj; [discriminate|lia].
    + simpl lookupRun. rewrite Hstep. reflexivity.
    + simpl lookupRun. rewrite Hstep. reflexivity.
Qed.

(** C6: on a trie built by insertions with lengths in 0..32 the loop of
    [viewLookup] leaves after [k] rounds for some [k] between 1 and 33: it
    visits [k] nodes, the root included, takes [k - 1] steps down, and
    returns the entry remembered at that point. *)
Theorem C6_lookup_terminates ops A
  (Hlen : Forall (fun op => 0 <= insLen op <= 32) ops) :
  exists k : nat,
    (1 <= k <= 33)%nat /\
    (forall j, (j < k)%nat ->
               lsNode (lookupRun j A (lookupInit (build ops))) <> None) /\
    lsNode (lookupRun k A (lookupInit (build ops))) = None /\
    lsInfo (lookupRun k A (lookupInit (build ops))) =
      viewLookup (build ops) A.
Proof.
  exists (lookupRounds A (root (build ops)) topBit).
  pose proof (lookupRounds_height A (root (build ops)) topBit).
  pose proof (height_build ops Hlen).
  split; [lia|].
  apply (lookupRun_rounds A (root (build ops)) topBit None).
Qed.

Lemma C6_lookup_terminates_witness :
  exists k : nat,
    (1 <= k <= 33)%nat /\
    (forall j, (j < k)%nat ->
               lsNode (lookupRun j 0x0A010203
                         (lookupInit (build [nestOuter; nestInner]))) <> None) /\
    lsNode (lookupRun k 0x0A010203
              (lookupInit (build [nestOuter; nestInner]))) = None /\
    lsInfo (lookupRun k 0x0A010203
              (lookupInit (build [nestOuter; nestInner]))) =
      viewLookup (build [nestOuter; nestInner]) 0x0A010203.
Proof.
  apply (C6_lookup_terminates [nestOuter; nestInner] 0x0A010203).
  repeat constructor; cbn; lia.
Defined.

(** ** C7: the codec packs the most significant octet first *)

Lemma land_shiftl_low x y k :
  0 <= k -> 0 <= x < 2 ^ k -> Z.land x (Z.shiftl y k) = 0.
Proof.
  intros Hk Hx. apply Z.bits_inj'. intros n Hn.
  rewrite Z.land_spec, Z.bits_0.
  destruct (Z.lt_ge_cases n k).
  - rewrite Z.shiftl_spec_low by assumption. apply andb_false_r.
  - rewrite <- (Z.mod_small x (2 ^ k)) by assumption.
    rewrite Z.mod_pow2_bits_high by lia. reflexivity.
Qed.

Lemma lor_shiftl_add x y k :
  0 <= k -> 0 <= x < 2 ^ k -> Z.lor x (Z.shiftl y k) = x + y * 2 ^ k.
Proof.
  intros Hk Hx.
  rewrite <- Z.lxor_lor, <- Z.add_nocarry_lxor
    by (apply land_shiftl_low; assumption).
  rewrite Z.shiftl_mul_pow2 by assumption. reflexivity.
Qed.

Lemma viewUintAddr_packed a b c d :
  0 <= a < 256 -> 0 <= b < 256 -> 0 <= c < 256 -> 0 <= d < 256 ->
  viewUintAddr [a; b; c; d] = packed a b c d.
Proof.
  intros Ha Hb Hc Hd. unfold viewUintAddr, packed, uint32.
  change ([a; b; c; d] !!! 3%nat) with d.
  change ([a; b; c; d] !!! 2%nat) with c.
  change ([a; b; c; d] !!! 1%nat) with b.
  change ([a; b; c; d] !!! 0%nat) with a.
  rewrite (Z.mod_small a), (Z.mod_small b), (Z.mod_small c),
    (Z.mod_small d) by lia.
  rewrite !(Z.mod_small (Z.shiftl _ _))
    by (rewrite Z.shiftl_mul_pow2 by lia; lia).
  rewrite (lor_shiftl_add d c 8) by lia.
  rewrite (lor_shiftl_add _ b 16) by lia.
  rewrite (lor_shiftl_add _ a 24) by lia.
  lia.
Qed.

Lemma octetsOf_packed a b c d :
  0 <= a < 256 -> 0 <= b < 256 -> 0 <= c < 256 -> 0 <= d < 256 ->
  octetsOf (packed a b c d) = [a; b; c; d].
Proof.
  intros Ha Hb Hc Hd. unfold octetsOf, packed.
  change 255 with (Z.ones 8).
  rewrite !Z.land_ones, !Z.shiftr_div_pow2 by lia.
  change (2 ^ 24) with 16777216. change (2 ^ 16) with 65536.
  change (2 ^ 8) with 256.
  repeat f_equal; Z.div_mod_to_equations; lia.
Qed.

(** C7: for octets within 0..255 the encoded value is
    [a*2^24 + b*2^16 + c*2^8 + d], and taking its four bytes, high byte
    first, gives the octets back. *)
Theorem C7_codec_msb_first a b c d
  (Ha : 0 <= a < 256) (Hb : 0 <= b < 256)
  (Hc : 0 <= c < 256) (Hd : 0 <= d < 256) :
  viewUintAddr [a; b; c; d] = a * 2 ^ 24 + b * 2 ^ 16 + c * 2 ^ 8 + d /\
  octetsOf (viewUintAddr [a; b; c; d]) = [a; b; c; d].
Proof.
  rewrite viewUintAddr_packed by assumption. split; [reflexivity|].
  apply octetsOf_packed; assumption.
Qed.

Lemma C7_codec_msb_first_witness :
  viewUintAddr [10; 1; 2; 3] = 10 * 2 ^ 24 + 1 * 2 ^ 16 + 2 * 2 ^ 8 + 3 /\
  octetsOf (viewUintAddr [10; 1; 2; 3]) = [10; 1; 2; 3].
Proof.
  apply (C7_codec_msb_first 10 1 2 3); lia.
Defined.

(** ** C8: malformed addresses *)

(** The octet loop fails exactly when one of the components it reads
    does not parse. *)
Lemma viewOctets_None ipfs : forall rounds i netaddr,
  viewOctets ipfs i rounds netaddr = None <->
  exists j, (i <= j < i + rounds)%nat /\ Atoi (ipfs !!! j) = None.
Proof.
  induction rounds as [|rounds IH]; intros i netaddr; simpl.
  - split; [discriminate|]. intros (j & Hj & _). lia.
  - destruct (Atoi (ipfs !!! i)) as [baddr|] eqn:Hi.
    + rewrite IH. split; intros (j & Hj & Hnone).
      * exists j. split; [lia|assumption].
      * exists j. split; [|assumption].
        destruct (decide (j = i)) as [->|]; [congruence|lia].
    + split; [|reflexivity]. intros _. exists i. split; [lia|assumption].
Qed.

(** The three ways a call of [Lookup] can go. *)
Lemma Lookup_cases v addr :
  (length (bytesSplit addr ".") <> 4%nat /\
   Lookup v addr = (None, Some errBadAddress)) \/
  (length (bytesSplit addr ".") = 4%nat /\
   (exists s, s ∈ bytesSplit addr "." /\ Atoi s = None) /\
   Lookup v addr = (None, Some errBadAddress)) \/
  (length (bytesSplit addr ".") = 4%nat /\
   (forall s, s ∈ bytesSplit addr "." -> Atoi s <> None) /\
   snd (Lookup v addr) = None).
Proof.
  unfold Lookup.
  destruct (Nat.eqb_spec (length (bytesSplit addr ".")) 4) as [Hlen|Hlen];
    cbn [negb]; [|left; auto].
  right.
  destruct (viewOctets (bytesSplit addr ".") 0 4 zeroAddr) as [netaddr|]
    eqn:Hoct.
  - right. split; [assumption|]. split; [|reflexivity].
    intros s Hin Hnone.
    apply list_elem_of_lookup_total in Hin as (j & Hj & <-).
    assert (Hfail : viewOctets (bytesSplit addr ".") 0 4 zeroAddr = None).
    { apply viewOctets_None. exists j. split; [lia|assumption]. }
    congruence.
  - left. split; [assumption|]. split; [|reflexivity].
    apply viewOctets_None in Hoct as (j & Hj & Hnone).
    exists (bytesSplit addr "." !!! j). split; [|assumption].
    apply list_elem_of_lookup_total. exists j. split; [lia|reflexivity].
Qed.

(** C8: [Lookup] returns [errBadAddress] exactly when splitting the text
    on ['.'] does not give 4 components or [Atoi] rejects one of them; it
    returns no other error, and with the error no entry; ["1.2.3"],
    ["1.2.3.4.5"] and ["a.b.c.d"] are rejected on every trie. *)
Theorem C8_invalid_address (v : View) (addr : string) :
  (snd (Lookup v addr) = Some errBadAddress <->
   length (bytesSplit addr ".") <> 4%nat \/
   exists s, s ∈ bytesSplit addr "." /\ Atoi s = None) /\
  (snd (Lookup v addr) <> None ->
   Lookup v addr = (None, Some errBadAddress)) /\
  Lookup v "1.2.3" = (None, Some errBadAddress) /\
  Lookup v "1.2.3.4.5" = (None, Some errBadAddress) /\
  Lookup v "a.b.c.d" = (None, Some errBadAddress).
Proof.
  split; [|split; [|repeat split]].
  - destruct (Lookup_cases v addr)
      as [[Hlen ->]|[(Hlen & Hbad & ->)|(Hlen & Hall & ->)]]; simpl.
    + tauto.
    + tauto.
    + split; [discriminate|].
      intros [Hne|(s & Hin & Hnone)]; [congruence|].
      exfalso. exact (Hall s Hin Hnone).
  - destruct (Lookup_cases v addr)
      as [[Hlen ->]|[(Hlen & Hbad & ->)|(Hlen & Hall & ->)]]; simpl;
      congruence.
Qed.

(** ** C9: octets outside 0..255 are truncated *)

(** C9: when the text splits into four components that all parse,
    [Lookup] returns no error and looks up the address packed from the
    components reduced modulo 256; so ["256.0.0.1"] and ["0.0.0.1"] both
    look up address 1 and return the same result on every trie. *)
Theorem C9_octets_truncated :
  (forall (v : View) (addr s0 s1 s2 s3 : string) (n0 n1 n2 n3 : Z),
      bytesSplit addr "." = [s0; s1; s2; s3] ->
      Atoi s0 = Some n0 -> Atoi s1 = Some n1 ->
      Atoi s2 = Some n2 -> Atoi s3 = Some n3 ->
      Lookup v addr =
      (viewLookup v (packed (n0 mod 256) (n1 mod 256)
                            (n2 mod 256) (n3 mod 256)), None)) /\
  (forall v : View,
      Lookup v "256.0.0.1" = (viewLookup v 1, None) /\
      Lookup v "0.0.0.1" = (viewLookup v 1, None) /\
      Lookup v "256.0.0.1" = Lookup v "0.0.0.1").
Proof.
  split.
  - intros v addr s0 s1 s2 s3 n0 n1 n2 n3 Hsplit H0 H1 H2 H3.
    unfold Lookup. rewrite Hsplit. simpl.
    change ([s0; s1; s2; s3] !!! 0%nat) with s0.
    change ([s0; s1; s2; s3] !!! 1%nat) with s1.
    change ([s0; s1; s2; s3] !!! 2%nat) with s2.
    change ([s0; s1; s2; s3] !!! 3%nat) with s3.
    rewrite H0, H1, H2, H3. simpl.
    rewrite viewUintAddr_packed;
      [reflexivity|unfold uint8; apply Z.mod_pos_bound; lia ..].
  - intros v. repeat split.
Qed.

Lemma C9_octets_truncated_witness :
  Lookup (build [nestOuter]) "266.257.2.3" =
  (viewLookup (build [nestOuter])
     (packed (266 mod 256) (257 mod 256) (2 mod 256) (3 mod 256)), None).
Proof.
  apply (proj1 C9_octets_truncated (build [nestOuter]) "266.257.2.3"
           "266" "257" "2" "3" 266 257 2 3); reflexivity.
Defined.

(** ** C10: negative prefix lengths *)

(** C10: with [mask < 0] neither loop of [viewInsert] runs: the call
    does what the call with [mask = 0] does, that is, it returns
    [errDupNet] and the trie unchanged when the root carries an entry, and
    otherwise sets the root's entry, leaving its children as they are. *)
Theorem C10_negative_mask (v : View) (a mask : Z) (info : option ViewInfo)
  (Hneg : mask < 0) :
  viewInsert v a mask info = viewInsert v a 0 info /\
  viewInsert v a mask info =
    match vinfo (root v) with
    | Some _ => (v, Some errDupNet)
    | None =>
        (mkView (mkNode (left (root v)) (right (root v)) info)
                (fileName v) (lineNum v), None)
    end.
Proof.
  unfold viewInsert. replace (Z.to_nat mask) with O by lia.
  split; [reflexivity|]. simpl.
  destruct v as [[l r i] f n]; simpl. destruct i; reflexivity.
Qed.

Lemma C10_negative_mask_witness :
  viewInsert New 0x0A000000 (-1) (Some (mkViewInfo "A" "10.0.0.0/-1")) =
  viewInsert New 0x0A000000 0 (Some (mkViewInfo "A" "10.0.0.0/-1")).
Proof.
  apply (C10_negative_mask New 0x0A000000 (-1)). lia.
Defined.

(** * Further properties of the trie *)

(** ** Entries after an insertion *)

(** What every position carries after a call of [viewInsert]: nothing
    changes when the target carries an entry; otherwise the target carries
    [info] and the other positions what they carried. *)
Lemma entryAt_viewInsert v a mask info q :
  entryAt q (root (fst (viewInsert v a mask info))) =
  match entryAt (targetOf a mask) (root v) with
  | Some _ => entryAt q (root v)
  | None => if decide (q = targetOf a mask) then info else entryAt q (root v)
  end.
Proof.
  destruct (entryAt (targetOf a mask) (root v)) as [x|] eqn:Ht.
  - rewrite (viewInsert_dup_same _ _ _ _ _ Ht). reflexivity.
  - rewrite root_viewInsert.
    apply (viewInsertFrom_fresh _ _ _ info _ Ht).
Qed.

(** A lookup depends on the entries along the path of the address
    only. *)
Lemma viewLookupFrom_ext a t1 t2 bit info :
  (forall n, entryAt (viewPath n a bit) t1 = entryAt (viewPath n a bit) t2) ->
  viewLookupFrom a t1 bit info = viewLookupFrom a t2 bit info.
Proof.
  intros Hext.
  destruct (viewLookupFrom_spec a t1 bit info)
    as [[R1 N1]|(n1 & e1 & R1 & A1 & B1)];
  destruct (viewLookupFrom_spec a t2 bit info)
    as [[R2 N2]|(n2 & e2 & R2 & A2 & B2)]; rewrite R1, R2.
  - reflexivity.
  - rewrite <- Hext, N1 in A2. discriminate.
  - rewrite Hext, N2 in A1. discriminate.
  - destruct (lt_eq_lt_dec n1 n2) as [[Hlt|Heq]|Hgt].
    + rewrite <- Hext, (B1 _ Hlt) in A2. discriminate.
    + subst n2. rewrite Hext in A1. congruence.
    + rewrite Hext, (B2 _ Hgt) in A1. discriminate.
Qed.

(** The entry of the deepest position that carries one is what a lookup
    returns. *)
Lemma viewLookupFrom_deepest a t bit info n e :
  entryAt (viewPath n a bit) t = Some e ->
  (forall m, (n < m)%nat -> entryAt (viewPath m a bit) t = None) ->
  viewLookupFrom a t bit info = Some e.
Proof.
  intros Hat Hbelow.
  destruct (viewLookupFrom_spec a t bit info)
    as [[R N]|(n' & e' & R & A & B)]; rewrite R.
  - rewrite N in Hat. discriminate.
  - destruct (lt_eq_lt_dec n n') as [[Hlt|Heq]|Hgt].
    + rewrite (Hbelow _ Hlt) in A. discriminate.
    + subst n'. congruence.
    + rewrite (B _ Hgt) in Hat. discriminate.
Qed.

Lemma viewLookupFrom_no_entry a t bit info :
  (forall n, entryAt (viewPath n a bit) t = None) ->
  viewLookupFrom a t bit info = info.
Proof.
  intros Hnone.
  destruct (viewLookupFrom_spec a t bit info)
    as [[R N]|(n' & e' & R & A & B)]; [exact R|].
  rewrite Hnone in A. discriminate.
Qed.

(** The target of an insertion lies on the path of exactly the
    addresses its prefix contains. *)
Lemma targetOf_on_path a mask A n :
  targetOf a mask = viewPath n A topBit <->
  Z.to_nat mask = n /\ prefixMatch a mask A = true.
Proof.
  unfold targetOf. rewrite prefixMatch_path. split.
  - intros H. assert (Hlen : Z.to_nat mask = n).
    { apply (f_equal length) in H. rewrite !viewPath_length in H. exact H. }
    split; [assumption|]. rewrite Hlen at 2. exact H.
  - intros [<- H]. exact H.
Qed.

(** ** Lookups before and after an insertion *)

Lemma viewInsert_outside v a mask info A :
  prefixMatch a mask A = false ->
  viewLookup (fst (viewInsert v a mask info)) A = viewLookup v A.
Proof.
  intros Hout. unfold viewLookup. apply viewLookupFrom_ext. intros n.
  rewrite entryAt_viewInsert.
  destruct (entryAt (targetOf a mask) (root v)); [reflexivity|].
  case_decide as Heq; [|reflexivity].
  symmetry in Heq. apply targetOf_on_path in Heq as [_ Hin]. congruence.
Qed.

(** X1: a call of [viewInsert], whatever it is given and whatever it
    returns, leaves the lookup of every address outside its prefix as it
    was. *)
Theorem X1_insert_frame (v : View) (a mask : Z) (info : option ViewInfo)
    (A : Z) :
  prefixMatch a mask A = false ->
  viewLookup (fst (viewInsert v a mask info)) A = viewLookup v A.
Proof. apply viewInsert_outside. Qed.

Lemma X1_insert_frame_witness :
  viewLookup (fst (viewInsertOp (build [nestOuter]) nestInner)) 0x0A020203 =
  viewLookup (build [nestOuter]) 0x0A020203.
Proof.
  apply (X1_insert_frame (build [nestOuter]) (insAddr nestInner)
           (insLen nestInner) (Some (insEntry nestInner)) 0x0A020203).
  reflexivity.
Defined.

(** X2: after a call of [viewInsert] a lookup returns what it returned
    before, or else the entry that was passed in; the latter only for an
    address inside the prefix, a non-nil entry and a call that returned no
    error.  So no call makes a lookup lose its match, and a call with a
    [nil] entry changes no lookup. *)
Theorem X2_lookup_old_or_new (v : View) (a mask : Z) (info : option ViewInfo)
    (A : Z) :
  viewLookup (fst (viewInsert v a mask info)) A = viewLookup v A \/
  (viewLookup (fst (viewInsert v a mask info)) A = info /\
   info <> None /\
   prefixMatch a mask A = true /\
   snd (viewInsert v a mask info) = None).
Proof.
  destruct (prefixMatch a mask A) eqn:Hin;
    [|left; apply viewInsert_outside; assumption].
  destruct (entryAt (targetOf a mask) (root v)) as [x|] eqn:Ht.
  { left. rewrite (viewInsert_dup_same _ _ _ _ _ Ht). reflexivity. }
  assert (Herr : snd (viewInsert v a mask info) = None)
    by (rewrite viewInsert_error, Ht; reflexivity).
  assert (Hent : forall q,
            entryAt q (root (fst (viewInsert v a mask info))) =
            if decide (q = targetOf a mask) then info else entryAt q (root v))
    by (intros q; rewrite entryAt_viewInsert, Ht; reflexivity).
  destruct info as [e|].
  - unfold viewLookup.
    destruct (viewLookupFrom_spec A (root (fst (viewInsert v a mask (Some e))))
                topBit None) as [[R N]|(n & e' & R & At & B)].
    + exfalso. specialize (N (Z.to_nat mask)). rewrite Hent in N.
      rewrite decide_True in N; [discriminate|].
      symmetry. apply targetOf_on_path. auto.
    + rewrite Hent in At. case_decide as Heq.
      * right. rewrite R. injection At as <-. repeat split; congruence.
      * left. rewrite R. symmetry.
        apply (viewLookupFrom_deepest _ _ _ _ n); [assumption|].
        intros m Hm. specialize (B m Hm). rewrite Hent in B.
        case_decide; [discriminate|assumption].
  - left. unfold viewLookup. apply viewLookupFrom_ext. intros n.
    rewrite Hent. case_decide as Heq; [|reflexivity].
    rewrite Heq, Ht. reflexivity.
Qed.

Lemma prefixMatch_refl a mask : prefixMatch a mask a = true.
Proof. apply prefixMatch_path. reflexivity. Qed.

Lemma viewLookup_single a mask e A :
  viewLookup (build [(a, mask, e)]) A =
  if prefixMatch a mask A then Some e else None.
Proof.
  assert (Hent : forall q,
            entryAt q (root (build [(a, mask, e)])) =
            if decide (q = targetOf a mask) then Some e else None).
  { intros q. rewrite entryAt_build. simpl.
    unfold insTarget, insAddr, insLen, insEntry; simpl.
    repeat case_decide; congruence. }
  unfold viewLookup. destruct (prefixMatch a mask A) eqn:Hin.
  - apply (viewLookupFrom_deepest _ _ _ _ (Z.to_nat mask)).
    + rewrite Hent, decide_True; [reflexivity|].
      symmetry. apply targetOf_on_path. auto.
    + intros m Hm. rewrite Hent, decide_False; [reflexivity|].
      intros Heq. symmetry in Heq.
      apply targetOf_on_path in Heq as [Hlen _]. lia.
  - apply viewLookupFrom_no_entry. intros n.
    rewrite Hent, decide_False; [reflexivity|].
    intros Heq. symmetry in Heq.
    apply targetOf_on_path in Heq as [_ Hm]. congruence.
Qed.

(** X3: a trie that holds one insertion answers exactly the addresses of
    its prefix, for every prefix length, negative ones (which bind the
    root) and ones above 32 (which extend the path by zero bits)
    included. *)
Theorem X3_single_insertion (a mask : Z) (e : ViewInfo) (A : Z) :
  viewInsert New a mask (Some e) = (build [(a, mask, e)], None) /\
  viewLookup (build [(a, mask, e)]) A =
  if prefixMatch a mask A then Some e else None.
Proof.
  split; [|apply viewLookup_single].
  assert (Herr : snd (viewInsert New a mask (Some e)) = None).
  { rewrite viewInsert_error.
    change (root New) with emptyNode. rewrite entryAt_emptyNode.
    reflexivity. }
  destruct (viewInsert New a mask (Some e)) as [v' err] eqn:Hv.
  simpl in Herr. subst err. unfold build, viewInsertOp; simpl.
  unfold insAddr, insLen, insEntry; simpl. rewrite Hv. reflexivity.
Qed.

Lemma viewInsert_inside v a mask e A :
  prefixMatch a mask A = true ->
  viewLookup (fst (viewInsert v a mask (Some e))) A <> None.
Proof.
  intros Hin. unfold viewLookup.
  destruct (viewLookupFrom_spec A (root (fst (viewInsert v a mask (Some e))))
              topBit None) as [[R N]|(n & e' & R & _)]; [|congruence].
  exfalso. specialize (N (Z.to_nat mask)).
  rewrite entryAt_viewInsert in N.
  assert (Hp : viewPath (Z.to_nat mask) A topBit = targetOf a mask)
    by (symmetry; apply targetOf_on_path; auto).
  rewrite Hp in N.
  destruct (entryAt (targetOf a mask) (root v)) eqn:Ht.
  - congruence.
  - rewrite decide_True in N; [discriminate|reflexivity].
Qed.

(** X4: after a call of [viewInsert] with a non-nil entry, whatever the
    call returned, every address inside the prefix finds an entry. *)
Theorem X4_inserted_prefix_matches (v : View) (a mask : Z) (e : ViewInfo)
    (A : Z) :
  prefixMatch a mask A = true ->
  viewLookup (fst (viewInsert v a mask (Some e))) A <> None.
Proof. apply viewInsert_inside. Qed.

Lemma X4_inserted_prefix_matches_witness :
  viewLookup (fst (viewInsertOp (build [dupFirst]) dupSecond)) 0x0A000002
  <> None.
Proof.
  apply (X4_inserted_prefix_matches (build [dupFirst]) (insAddr dupSecond)
           (insLen dupSecond) (insEntry dupSecond) 0x0A000002).
  reflexivity.
Defined.



(** ** Nodes after an insertion *)

#[local] Arguments nodeAt : simpl never.

Lemma nodeAt_nil node : nodeAt [] node = Some node.
Proof. reflexivity. Qed.

Lemma nodeAt_cons side p node :
  nodeAt (side :: p) node =
  match child side node with
  | None => None
  | Some next => nodeAt p next
  end.
Proof. reflexivity. Qed.

Lemma nodeAt_setVinfo p node info :
  is_Some (nodeAt p (setVinfo node info)) <-> is_Some (nodeAt p node).
Proof.
  destruct p as [|side p].
  - rewrite !nodeAt_nil. split; eauto.
  - rewrite !nodeAt_cons, child_setVinfo. reflexivity.
Qed.

Lemma nodeAt_emptyNode p : is_Some (nodeAt p emptyNode) <-> p = [].
Proof.
  destruct p as [|[] p]; split; try discriminate; try reflexivity.
  - intros _. rewrite nodeAt_nil. eauto.
  - intros [? [=]].
  - intros [? [=]].
Qed.

(** A freshly grown chain has the nodes of its path and no others. *)
Lemma nodeAt_viewGrow n a info : forall bit p,
  is_Some (nodeAt p (viewGrow n a bit info)) <->
  p `prefix_of` viewPath n a bit.
Proof.
  induction n as [|n IH]; intros bit p; simpl.
  - rewrite nodeAt_setVinfo, nodeAt_emptyNode. split.
    + intros ->. apply prefix_nil.
    + apply prefix_nil_inv.
  - destruct p as [|side p].
    + rewrite nodeAt_nil. split; [intros _; apply prefix_nil|eauto].
    + rewrite nodeAt_cons.
      destruct (decide (bitSet a bit = side)) as [<-|Hne].
      * rewrite child_setChild_same, IH. split.
        -- apply prefix_cons.
        -- apply prefix_cons_inv_2.
      * rewrite child_setChild_other by assumption.
        split.
        -- destruct side; intros [? [=]].
        -- intros H. apply prefix_cons_inv_1 in H. congruence.
Qed.

(** The nodes after an insertion are the nodes before it and those of
    the path to the target. *)
Lemma nodeAt_viewInsertFrom n a info : forall bit node p,
  is_Some (nodeAt p (fst (viewInsertFrom n a bit info node))) <->
  is_Some (nodeAt p node) \/ p `prefix_of` viewPath n a bit.
Proof.
  induction n as [|n IH]; intros bit node p; simpl.
  - assert (Hsame : is_Some (nodeAt p
              (fst (match vinfo node with
                    | Some _ => (node, Some errDupNet)
                    | None => (setVinfo node info, None)
                    end))) <-> is_Some (nodeAt p node)).
    { destruct (vinfo node); simpl; [reflexivity|apply nodeAt_setVinfo]. }
    rewrite Hsame. split; [auto|].
    intros [H|H]; [assumption|].
    apply prefix_nil_inv in H as ->. rewrite nodeAt_nil. eauto.
  - destruct p as [|side p].
    + rewrite !nodeAt_nil.
      split; [intros _; right; apply prefix_nil|intros _; eauto].
    + destruct (child (bitSet a bit) node) as [next|] eqn:Hc.
      * specialize (IH (Z.shiftr bit 1) next p).
        destruct (viewInsertFrom n a (Z.shiftr bit 1) info next)
          as [next' err]; simpl in *.
        rewrite !nodeAt_cons.
        destruct (decide (bitSet a bit = side)) as [<-|Hne].
        -- rewrite child_setChild_same, Hc, IH. split.
           ++ intros [H|H]; [left; assumption|right; apply prefix_cons, H].
           ++ intros [H|H]; [left; assumption|].
              right. eapply prefix_cons_inv_2, H.
        -- rewrite child_setChild_other by assumption. split; [auto|].
           intros [H|H]; [assumption|].
           apply prefix_cons_inv_1 in H. congruence.
      * simpl. rewrite !nodeAt_cons.
        destruct (decide (bitSet a bit = side)) as [<-|Hne].
        -- rewrite child_setChild_same, Hc, nodeAt_viewGrow. split.
           ++ intros H. right. apply prefix_cons, H.
           ++ intros [[? [=]]|H]. eapply prefix_cons_inv_2, H.
        -- rewrite child_setChild_other by assumption. split; [auto|].
           intros [H|H]; [assumption|].
           apply prefix_cons_inv_1 in H. congruence.
Qed.

(** Two trees with the same nodes and the same entries are the same
    tree. *)
Lemma viewNode_ext t1 : forall t2,
  (forall p, is_Some (nodeAt p t1) <-> is_Some (nodeAt p t2)) ->
  (forall p, entryAt p t1 = entryAt p t2) ->
  t1 = t2.
Proof.
  induction t1 as [l1 r1 i1 IHl IHr] using viewNode_ind.
  intros [l2 r2 i2] Hnodes Hent.
  assert (Hi : i1 = i2) by exact (Hent []).
  assert (Hl : l1 = l2).
  { destruct l1 as [c1|], l2 as [c2|].
    - f_equal. apply (IHl c1 eq_refl).
      + intros p. exact (Hnodes (false :: p)).
      + intros p. exact (Hent (false :: p)).
    - destruct (proj1 (Hnodes [false])) as [? [=]]. cbv; eauto.
    - destruct (proj2 (Hnodes [false])) as [? [=]]. cbv; eauto.
    - reflexivity. }
  assert (Hr : r1 = r2).
  { destruct r1 as [c1|], r2 as [c2|].
    - f_equal. apply (IHr c1 eq_refl).
      + intros p. exact (Hnodes (true :: p)).
      + intros p. exact (Hent (true :: p)).
    - destruct (proj1 (Hnodes [true])) as [? [=]]. cbv; eauto.
    - destruct (proj2 (Hnodes [true])) as [? [=]]. cbv; eauto.
    - reflexivity. }
  congruence.
Qed.

Lemma viewInsert_fields v a mask info :
  fileName (fst (viewInsert v a mask info)) = fileName v /\
  lineNum (fst (viewInsert v a mask info)) = lineNum v.
Proof. rewrite viewInsert_recursive. split; reflexivity. Qed.

Lemma View_eq v1 v2 :
  root v1 = root v2 -> fileName v1 = fileName v2 ->
  lineNum v1 = lineNum v2 -> v1 = v2.
Proof. destruct v1, v2; simpl; congruence. Qed.

Lemma nodeAt_viewInsert v a mask info p :
  is_Some (nodeAt p (root (fst (viewInsert v a mask info)))) <->
  is_Some (nodeAt p (root v)) \/ p `prefix_of` targetOf a mask.
Proof. rewrite root_viewInsert. apply nodeAt_viewInsertFrom. Qed.

(** ** Insertions at different prefixes commute *)

Lemma targetOf_differ a1 m1 a2 m2 :
  Z.to_nat m1 <> Z.to_nat m2 \/ prefixMatch a1 m1 a2 = false ->
  targetOf a1 m1 <> targetOf a2 m2.
Proof.
  intros Hdiff Heq.
  apply (targetOf_on_path a1 m1 a2 (Z.to_nat m2)) in Heq as [Hlen Hm].
  destruct Hdiff; congruence.
Qed.

Lemma viewInsert_commute v a1 m1 i1 a2 m2 i2 :
  targetOf a1 m1 <> targetOf a2 m2 ->
  fst (viewInsert (fst (viewInsert v a1 m1 i1)) a2 m2 i2) =
  fst (viewInsert (fst (viewInsert v a2 m2 i2)) a1 m1 i1) /\
  snd (viewInsert (fst (viewInsert v a1 m1 i1)) a2 m2 i2) =
  snd (viewInsert v a2 m2 i2).
Proof.
  intros Hne.
  assert (He2 : entryAt (targetOf a2 m2) (root (fst (viewInsert v a1 m1 i1)))
                = entryAt (targetOf a2 m2) (root v)).
  { rewrite entryAt_viewInsert.
    destruct (entryAt (targetOf a1 m1) (root v)); [reflexivity|].
    rewrite decide_False by congruence. reflexivity. }
  assert (He1 : entryAt (targetOf a1 m1) (root (fst (viewInsert v a2 m2 i2)))
                = entryAt (targetOf a1 m1) (root v)).
  { rewrite entryAt_viewInsert.
    destruct (entryAt (targetOf a2 m2) (root v)); [reflexivity|].
    rewrite decide_False by congruence. reflexivity. }
  split.
  - apply View_eq.
    + apply viewNode_ext.
      * intros p. rewrite !nodeAt_viewInsert. tauto.
      * intros p.
        rewrite (entryAt_viewInsert (fst (viewInsert v a1 m1 i1))).
        rewrite (entryAt_viewInsert (fst (viewInsert v a2 m2 i2))).
        rewrite He1, He2, !entryAt_viewInsert.
        destruct (entryAt (targetOf a1 m1) (root v)),
                 (entryAt (targetOf a2 m2) (root v));
          repeat case_decide; congruence.
    + destruct (viewInsert_fields (fst (viewInsert v a1 m1 i1)) a2 m2 i2)
        as [-> _].
      destruct (viewInsert_fields (fst (viewInsert v a2 m2 i2)) a1 m1 i1)
        as [-> _].
      destruct (viewInsert_fields v a1 m1 i1) as [-> _].
      destruct (viewInsert_fields v a2 m2 i2) as [-> _]. reflexivity.
    + destruct (viewInsert_fields (fst (viewInsert v a1 m1 i1)) a2 m2 i2)
        as [_ ->].
      destruct (viewInsert_fields (fst (viewInsert v a2 m2 i2)) a1 m1 i1)
        as [_ ->].
      destruct (viewInsert_fields v a1 m1 i1) as [_ ->].
      destruct (viewInsert_fields v a2 m2 i2) as [_ ->]. reflexivity.
  - rewrite !viewInsert_error, He2. reflexivity.
Qed.

(** X6: two calls of [viewInsert] for different prefixes (different
    lengths, or leading bits that differ) can be made in either order: the
    resulting [View] is the same, and each call returns what it would have
    returned had it been made first. *)
Theorem X6_insertions_commute (v : View) (a1 m1 : Z) (i1 : option ViewInfo)
    (a2 m2 : Z) (i2 : option ViewInfo) :
  Z.to_nat m1 <> Z.to_nat m2 \/ prefixMatch a1 m1 a2 = false ->
  fst (viewInsert (fst (viewInsert v a1 m1 i1)) a2 m2 i2) =
  fst (viewInsert (fst (viewInsert v a2 m2 i2)) a1 m1 i1) /\
  snd (viewInsert (fst (viewInsert v a1 m1 i1)) a2 m2 i2) =
  snd (viewInsert v a2 m2 i2) /\
  snd (viewInsert (fst (viewInsert v a2 m2 i2)) a1 m1 i1) =
  snd (viewInsert v a1 m1 i1).
Proof.
  intros Hdiff. pose proof (targetOf_differ _ _ _ _ Hdiff) as Hne.
  destruct (viewInsert_commute v a1 m1 i1 a2 m2 i2 Hne) as [Hv He].
  destruct (viewInsert_commute v a2 m2 i2 a1 m1 i1 (not_eq_sym Hne))
    as [_ He'].
  auto.
Qed.

Lemma X6_insertions_commute_witness :
  fst (viewInsertOp (fst (viewInsertOp New nestOuter)) nestInner) =
  fst (viewInsertOp (fst (viewInsertOp New nestInner)) nestOuter).
Proof.
  refine (proj1 (X6_insertions_commute New (insAddr nestOuter)
           (insLen nestOuter) (Some (insEntry nestOuter)) (insAddr nestInner)
           (insLen nestInner) (Some (insEntry nestInner)) _)).
  left. vm_compute. discriminate.
Defined.

(** ** Allocation *)

Lemma nodeCount_pos node : (1 <= nodeCount node)%nat.
Proof. destruct node; simpl; lia. Qed.








(** ** Host routes *)

(** For 32-bit values, agreeing on all 32 leading bits is being equal. *)
Lemma prefixMatch_32 a A :
  0 <= a < 2 ^ 32 -> 0 <= A < 2 ^ 32 ->
  prefixMatch a 32 A = true -> a = A.
Proof.
  intros Ha HA Hm. unfold prefixMatch in Hm.
  rewrite forallb_forall in Hm.
  apply Z.bits_inj'. intros n Hn.
  destruct (Z.lt_ge_cases n 32) as [Hlo|Hhi].
  - specialize (Hm (Z.to_nat (31 - n))).
    replace (31 - Z.of_nat (Z.to_nat (31 - n))) with n in Hm by lia.
    apply eqb_prop, Hm. apply in_seq. change (Z.to_nat 32) with 32%nat. lia.
  - rewrite <- (Z.mod_small a (2 ^ 32)), <- (Z.mod_small A (2 ^ 32))
      by assumption.
    rewrite !Z.mod_pow2_bits_high by lia. reflexivity.
Qed.

Lemma nodeAt_height p : forall node,
  is_Some (nodeAt p node) -> (length p < height node)%nat.
Proof.
  induction p as [|side p IH]; intros node.
  - intros _. destruct node; simpl; lia.
  - rewrite nodeAt_cons.
    destruct (child side node) as [next|] eqn:Hc; [|intros [? [=]]].
    intros H. specialize (IH next H).
    pose proof (height_child _ _ _ Hc). simpl. lia.
Qed.

(** X8: on a trie built by insertions with lengths in 0..32, a call of
    [viewInsert] with length 32 that returns no error binds its address
    and no other: a lookup of the address returns the new entry, and the
    lookup of every other 32-bit address is what it was. *)
Theorem X8_host_route (ops : list insertion) (a : Z) (e : ViewInfo)
  (Hlen : Forall (fun op => 0 <= insLen op <= 32) ops)
  (Ha : 0 <= a < 2 ^ 32)
  (Hok : snd (viewInsert (build ops) a 32 (Some e)) = None) :
  viewLookup (fst (viewInsert (build ops) a 32 (Some e))) a = Some e /\
  forall A, 0 <= A < 2 ^ 32 -> A <> a ->
    viewLookup (fst (viewInsert (build ops) a 32 (Some e))) A =
    viewLookup (build ops) A.
Proof.
  split.
  - assert (Hfree : entryAt (targetOf a 32) (root (build ops)) = None).
    { rewrite viewInsert_error in Hok.
      destruct (entryAt (targetOf a 32) (root (build ops)));
        [discriminate|reflexivity]. }
    unfold viewLookup. apply (viewLookupFrom_deepest _ _ _ _ 32).
    + rewrite entryAt_viewInsert, Hfree.
      rewrite decide_True; reflexivity.
    + intros m Hm.
      assert (Hh : (height (root (build (ops ++ [(a, 32%Z, e)]))) <= 33)%nat).
      { apply height_build. apply Forall_app. split; [assumption|].
        repeat constructor; cbn; lia. }
      rewrite build_snoc in Hh. unfold viewInsertOp in Hh.
      change (insAddr (a, 32, e)) with a in Hh.
      change (insLen (a, 32, e)) with 32 in Hh.
      change (insEntry (a, 32, e)) with e in Hh.
      unfold entryAt.
      destruct (nodeAt (viewPath m a topBit)
                  (root (fst (viewInsert (build ops) a 32 (Some e)))))
        as [n|] eqn:Hn; [|reflexivity].
      exfalso.
      assert (Hex : is_Some (nodeAt (viewPath m a topBit)
                  (root (fst (viewInsert (build ops) a 32 (Some e))))))
        by (rewrite Hn; eauto).
      apply nodeAt_height in Hex. rewrite viewPath_length in Hex. lia.
  - intros A HA Hne. apply viewInsert_outside.
    destruct (prefixMatch a 32 A) eqn:Hm; [|reflexivity].
    exfalso. apply Hne. symmetry. apply prefixMatch_32; assumption.
Qed.

Lemma X8_host_route_witness :
  viewLookup (fst (viewInsert (build [nestOuter; nestInner]) 0x0A010203 32
                     (Some (mkViewInfo "H" "10.1.2.3/32")))) 0x0A010203 =
  Some (mkViewInfo "H" "10.1.2.3/32").
Proof.
  refine (proj1 (X8_host_route [nestOuter; nestInner] 0x0A010203
                   (mkViewInfo "H" "10.1.2.3/32") _ _ _)).
  - repeat constructor; cbn; lia.
  - lia.
  - vm_compute. reflexivity.
Defined.

(** ** Prefix lengths above 32 *)

Lemma viewPath_prefix a : forall k n bit,
  (k <= n)%nat -> viewPath k a bit `prefix_of` viewPath n a bit.
Proof.
  induction k as [|k IH]; intros n bit Hk; simpl; [apply prefix_nil|].
  destruct n as [|n]; [lia|]. simpl. apply prefix_cons, IH. lia.
Qed.

(** The loop of [viewLookup] runs as long as the path of the address has
    nodes. *)
Lemma lookupRounds_nodes a node : forall bit,
  is_Some (nodeAt (viewPath (lookupRounds a node bit - 1) a bit) node) /\
  nodeAt (viewPath (lookupRounds a node bit) a bit) node = None.
Proof.
  induction node as [l r i IHl IHr] using viewNode_ind; intros bit.
  assert (Hchild : child (bitSet a bit) (mkNode l r i) =
                   if bitSet a bit then r else l)
    by (unfold child; destruct (bitSet a bit); reflexivity).
  assert (IH : forall next,
    (if bitSet a bit then r else l) = Some next ->
    is_Some (nodeAt (viewPath (lookupRounds a next (Z.shiftr bit 1) - 1) a
                       (Z.shiftr bit 1)) next) /\
    nodeAt (viewPath (lookupRounds a next (Z.shiftr bit 1)) a
              (Z.shiftr bit 1)) next = None).
  { intros next Hn. destruct (bitSet a bit); eauto. }
  simpl lookupRounds.
  destruct (if bitSet a bit then r else l) as [next|] eqn:Hsel.
  - destruct (IH next eq_refl) as [Hex Hno].
    pose proof (lookupRounds_height a next (Z.shiftr bit 1)) as [Hpos _].
    split.
    + replace (S (lookupRounds a next (Z.shiftr bit 1)) - 1)%nat
        with (S (lookupRounds a next (Z.shiftr bit 1) - 1)) by lia.
      simpl viewPath. rewrite nodeAt_cons, Hchild. exact Hex.
    + simpl viewPath. rewrite nodeAt_cons, Hchild. exact Hno.
  - split.
    + simpl. rewrite nodeAt_nil. eauto.
    + simpl viewPath. rewrite nodeAt_cons, Hchild. reflexivity.
Qed.

(** X9: the loop of [viewLookup] has no bound of its own.  After the
    single insertion of [a] with a length [mask >= 0], above 32 or not, a
    lookup of [a] is still in the loop after [mask] rounds, leaves it after
    [mask + 1], and returns the entry. *)
Theorem X9_lookup_rounds_follow_mask (a mask : Z) (e : ViewInfo)
  (Hmask : 0 <= mask) :
  let v := build [(a, mask, e)] in
  lsNode (lookupRun (Z.to_nat mask) a (lookupInit v)) <> None /\
  lsNode (lookupRun (S (Z.to_nat mask)) a (lookupInit v)) = None /\
  lsInfo (lookupRun (S (Z.to_nat mask)) a (lookupInit v)) = Some e.
Proof.
  cbv zeta.
  assert (Hnodes : forall p,
    is_Some (nodeAt p (root (build [(a, mask, e)]))) <->
    p `prefix_of` targetOf a mask).
  { intros p. change (build [(a, mask, e)])
      with (fst (viewInsert New a mask (Some e))).
    rewrite nodeAt_viewInsert. change (root New) with emptyNode.
    rewrite nodeAt_emptyNode. split; [|auto].
    intros [->|H]; [apply prefix_nil|assumption]. }
  assert (Hr : lookupRounds a (root (build [(a, mask, e)])) topBit =
               S (Z.to_nat mask)).
  { destruct (lookupRounds_nodes a (root (build [(a, mask, e)])) topBit)
      as [Hex Hno].
    pose proof (lookupRounds_height a (root (build [(a, mask, e)])) topBit)
      as [Hpos _].
    apply Hnodes, prefix_length in Hex.
    unfold targetOf in Hex. rewrite !viewPath_length in Hex.
    destruct (Nat.le_gt_cases
                (lookupRounds a (root (build [(a, mask, e)])) topBit)
                (Z.to_nat mask)) as [Hle|Hgt]; [|lia].
    exfalso.
    assert (Hsome : is_Some (nodeAt
              (viewPath (lookupRounds a (root (build [(a, mask, e)])) topBit)
                 a topBit) (root (build [(a, mask, e)]))))
      by (apply Hnodes, viewPath_prefix; assumption).
    rewrite Hno in Hsome. destruct Hsome as [? [=]]. }
  destruct (lookupRun_rounds a (root (build [(a, mask, e)])) topBit None)
    as (Hbefore & Hnil & Hinfo).
  rewrite Hr in Hbefore, Hnil, Hinfo.
  split; [apply Hbefore; lia|]. split; [exact Hnil|].
  unfold lookupInit. rewrite Hinfo.
  change (viewLookup (build [(a, mask, e)]) a = Some e).
  rewrite viewLookup_single, prefixMatch_refl. reflexivity.
Qed.

Lemma X9_lookup_rounds_follow_mask_witness :
  lsNode (lookupRun 40 0x0A000000
            (lookupInit (build [(0x0A000000, 40, insEntry nestOuter)])))
  <> None.
Proof.
  refine (proj1 (X9_lookup_rounds_follow_mask 0x0A000000 40
                   (insEntry nestOuter) _)).
  lia.
Defined.

(** * Further properties of the codec and the parsers *)

(** X10: on octets the codec stays within 32 bits and is one-to-one:
    two quads with the same encoding are the same quad. *)
Theorem X10_codec_injective (a b c d a' b' c' d' : Z)
  (Ha : 0 <= a < 256) (Hb : 0 <= b < 256)
  (Hc : 0 <= c < 256) (Hd : 0 <= d < 256)
  (Ha' : 0 <= a' < 256) (Hb' : 0 <= b' < 256)
  (Hc' : 0 <= c' < 256) (Hd' : 0 <= d' < 256) :
  0 <= viewUintAddr [a; b; c; d] < 2 ^ 32 /\
  (viewUintAddr [a; b; c; d] = viewUintAddr [a'; b'; c'; d'] ->
   [a; b; c; d] = [a'; b'; c'; d']).
Proof.
  rewrite !viewUintAddr_packed by assumption. split.
  - unfold packed. lia.
  - intros Heq. apply (f_equal octetsOf) in Heq.
    rewrite !octetsOf_packed in Heq by assumption. exact Heq.
Qed.

Lemma X10_codec_injective_witness :
  0 <= viewUintAddr [10; 1; 2; 3] < 2 ^ 32.
Proof.
  refine (proj1 (X10_codec_injective 10 1 2 3 10 1 2 4 _ _ _ _ _ _ _ _));
    lia.
Defined.

(** ** viewSubnet *)

Lemma viewSubnet_parse v subnet area :
  viewSubnet v subnet area =
  match viewSubnetParse subnet with
  | None => (v, Some errBadSubnet)
  | Some (a, mask) =>
      (fst (viewInsert v a mask (Some (mkViewInfo area subnet))), None)
  end.
Proof.
  unfold viewSubnet, viewSubnetParse.
  destruct (negb (length (bytesSplit subnet "/") =? 2)%nat); [reflexivity|].
  destruct (negb (length (bytesSplit (bytesSplit subnet "/" !!! 0%nat) ".")
                  =? 4)%nat); [reflexivity|].
  destruct (viewOctets _ 0 4 zeroAddr); [|reflexivity].
  destruct (Atoi _); reflexivity.
Qed.

Lemma viewSubnetParse_Some subnet :
  is_Some (viewSubnetParse subnet) <->
  length (bytesSplit subnet "/") = 2%nat /\
  length (bytesSplit (bytesSplit subnet "/" !!! 0%nat) ".") = 4%nat /\
  (forall s, s ∈ bytesSplit (bytesSplit subnet "/" !!! 0%nat) "." ->
             Atoi s <> None) /\
  Atoi (bytesSplit subnet "/" !!! 1%nat) <> None.
Proof.
  unfold viewSubnetParse.
  destruct (Nat.eqb_spec (length (bytesSplit subnet "/")) 2) as [H2|H2];
    cbn [negb]; [|split; [intros [? [=]]|tauto]].
  destruct (Nat.eqb_spec
              (length (bytesSplit (bytesSplit subnet "/" !!! 0%nat) ".")) 4)
    as [H4|H4]; cbn [negb]; [|split; [intros [? [=]]|tauto]].
  destruct (viewOctets (bytesSplit (bytesSplit subnet "/" !!! 0%nat) ".")
              0 4 zeroAddr) as [netaddr|] eqn:Hoct.
  - assert (Hall : forall s,
              s ∈ bytesSplit (bytesSplit subnet "/" !!! 0%nat) "." ->
              Atoi s <> None).
    { intros s Hin Hnone.
      apply list_elem_of_lookup_total in Hin as (j & Hj & <-).
      assert (Hfail : viewOctets
                (bytesSplit (bytesSplit subnet "/" !!! 0%nat) ".")
                0 4 zeroAddr = None).
      { apply viewOctets_None. exists j. split; [lia|assumption]. }
      congruence. }
    destruct (Atoi (bytesSplit subnet "/" !!! 1%nat)) as [mask|].
    + split; [intros _|eauto]. repeat split; try assumption. discriminate.
    + split; [intros [? [=]]|]. intros (_ & _ & _ & H). congruence.
  - split; [intros [? [=]]|]. intros (_ & _ & Hall & _). exfalso.
    apply viewOctets_None in Hoct as (j & Hj & Hnone).
    apply (Hall (bytesSplit (bytesSplit subnet "/" !!! 0%nat) "." !!! j));
      [|assumption].
    apply list_elem_of_lookup_total. exists j. split; [lia|reflexivity].
Qed.

(** X11: [viewSubnet] returns no error exactly when the text has one
    ['/'], four components before it that [Atoi] accepts and a length
    after it that [Atoi] accepts, whatever the values: octets outside
    0..255 and lengths outside 0..32 pass.  Every error is [errBadSubnet],
    never [errDupNet], and comes with the [View] unchanged. *)
Theorem X11_viewSubnet_errors (v : View) (subnet area : string) :
  (snd (viewSubnet v subnet area) = None <->
   length (bytesSplit subnet "/") = 2%nat /\
   length (bytesSplit (bytesSplit subnet "/" !!! 0%nat) ".") = 4%nat /\
   (forall s, s ∈ bytesSplit (bytesSplit subnet "/" !!! 0%nat) "." ->
              Atoi s <> None) /\
   Atoi (bytesSplit subnet "/" !!! 1%nat) <> None) /\
  (snd (viewSubnet v subnet area) <> None ->
   viewSubnet v subnet area = (v, Some errBadSubnet)).
Proof.
  rewrite <- viewSubnetParse_Some, viewSubnet_parse.
  destruct (viewSubnetParse subnet) as [[a mask]|]; simpl.
  - split; [split; eauto|congruence].
  - split; [|reflexivity]. split; [discriminate|intros [? [=]]].
Qed.

(** X12: of two subnet texts that name the same prefix (same length,
    same leading bits) the second is dropped without an error: the call
    returns [nil] and the [View] the first call left, so the first area
    stays bound.  In particular loading a subnet twice is loading it
    once. *)
Theorem X12_viewSubnet_duplicate_dropped (v : View)
    (s1 s2 area1 area2 : string) (a1 a2 mask : Z) :
  viewSubnetParse s1 = Some (a1, mask) ->
  viewSubnetParse s2 = Some (a2, mask) ->
  prefixMatch a1 mask a2 = true ->
  viewSubnet (fst (viewSubnet v s1 area1)) s2 area2 =
  (fst (viewSubnet v s1 area1), None).
Proof.
  intros H1 H2 Hm. rewrite !viewSubnet_parse, H1, H2. cbn [fst].
  assert (Ht : targetOf a2 mask = targetOf a1 mask).
  { symmetry. apply (targetOf_on_path a1 mask a2 (Z.to_nat mask)). auto. }
  destruct (entryAt (targetOf a2 mask)
              (root (fst (viewInsert v a1 mask
                            (Some (mkViewInfo area1 s1)))))) as [x|] eqn:Hx.
  - rewrite (viewInsert_dup_same _ _ _ _ _ Hx). reflexivity.
  - exfalso. rewrite Ht, entryAt_viewInsert in Hx.
    destruct (entryAt (targetOf a1 mask) (root v)) eqn:Hold.
    + congruence.
    + rewrite decide_True in Hx; [discriminate|reflexivity].
Qed.

Lemma X12_viewSubnet_duplicate_dropped_witness :
  viewSubnet (fst (viewSubnet New "10.0.0.1/8" "a")) "10.0.0.2/8" "b" =
  (fst (viewSubnet New "10.0.0.1/8" "a"), None).
Proof.
  apply (X12_viewSubnet_duplicate_dropped New "10.0.0.1/8" "10.0.0.2/8"
           "a" "b" 0x0A000001 0x0A000002 8); reflexivity.
Defined.

(** ** Loading a subnet, then looking it up *)

Lemma Lookup_components v addr s0 s1 s2 s3 n0 n1 n2 n3 :
  bytesSplit addr "." = [s0; s1; s2; s3] ->
  Atoi s0 = Some n0 -> Atoi s1 = Some n1 ->
  Atoi s2 = Some n2 -> Atoi s3 = Some n3 ->
  Lookup v addr =
  (viewLookup v (packed (n0 mod 256) (n1 mod 256) (n2 mod 256) (n3 mod 256)),
   None).
Proof.
  intros Hsplit H0 H1 H2 H3.
  unfold Lookup. rewrite Hsplit. simpl.
  change ([s0; s1; s2; s3] !!! 0%nat) with s0.
  change ([s0; s1; s2; s3] !!! 1%nat) with s1.
  change ([s0; s1; s2; s3] !!! 2%nat) with s2.
  change ([s0; s1; s2; s3] !!! 3%nat) with s3.
  rewrite H0, H1, H2, H3. simpl.
  rewrite viewUintAddr_packed;
    [reflexivity|unfold uint8; apply Z.mod_pos_bound; lia ..].
Qed.

(** The address part of a subnet text that [viewSubnet] accepts is a
    text [Lookup] accepts, and both read the same address from it. *)
Lemma Lookup_of_parse subnet a mask v :
  viewSubnetParse subnet = Some (a, mask) ->
  Lookup v (bytesSplit subnet "/" !!! 0%nat) = (viewLookup v a, None).
Proof.
  unfold viewSubnetParse, Lookup.
  destruct (negb (length (bytesSplit subnet "/") =? 2)%nat); [discriminate|].
  destruct (negb (length (bytesSplit (bytesSplit subnet "/" !!! 0%nat) ".")
                  =? 4)%nat); [discriminate|].
  destruct (viewOctets _ 0 4 zeroAddr); [|discriminate].
  destruct (Atoi _); [|discriminate].
  intros [= <- <-]. reflexivity.
Qed.

(** X13: after [viewSubnet] has returned no error for ["q/m"], [Lookup]
    of the address text [q] returns no error and a non-nil entry, on any
    trie and for any length [m]; on a fresh trie it is the entry of the
    subnet, carrying the area and the subnet text. *)
Theorem X13_subnet_then_lookup (v : View) (subnet area : string) :
  snd (viewSubnet v subnet area) = None ->
  (exists x, Lookup (fst (viewSubnet v subnet area))
               (bytesSplit subnet "/" !!! 0%nat) = (Some x, None)) /\
  Lookup (fst (viewSubnet New subnet area))
    (bytesSplit subnet "/" !!! 0%nat) =
  (Some (mkViewInfo area subnet), None).
Proof.
  rewrite !viewSubnet_parse.
  destruct (viewSubnetParse subnet) as [[a mask]|] eqn:Hp; [|discriminate].
  intros _. cbn [fst]. rewrite !(Lookup_of_parse _ _ _ _ Hp). split.
  - destruct (viewLookup (fst (viewInsert v a mask
                                 (Some (mkViewInfo area subnet)))) a)
      as [x|] eqn:Hx; [eauto|].
    exfalso. revert Hx. apply viewInsert_inside, prefixMatch_refl.
  - change (fst (viewInsert New a mask (Some (mkViewInfo area subnet))))
      with (build [(a, mask, mkViewInfo area subnet)]).
    rewrite viewLookup_single, prefixMatch_refl. reflexivity.
Qed.

Lemma X13_subnet_then_lookup_witness :
  Lookup (fst (viewSubnet New "10.1.0.0/16" "B")) "10.1.0.0" =
  (Some (mkViewInfo "B" "10.1.0.0/16"), None).
Proof.
  refine (proj2 (X13_subnet_then_lookup New "10.1.0.0/16" "B" _)).
  reflexivity.
Defined.

(** ** Dotted quads in decimal *)

Lemma bytesSplit_nonempty s sep : bytesSplit s sep <> [].
Proof.
  destruct s as [|c s]; simpl; [discriminate|].
  destruct (Ascii.eqb c sep); [discriminate|].
  destruct (bytesSplit s sep); discriminate.
Qed.

(** Splitting a text whose first piece holds no separator. *)
Lemma bytesSplit_app s t sep :
  bytesSplit s sep = [s] ->
  bytesSplit (s ++ String sep t) sep = s :: bytesSplit t sep.
Proof.
  induction s as [|c s IH]; simpl.
  - intros _. rewrite Ascii.eqb_refl. reflexivity.
  - destruct (Ascii.eqb c sep); [discriminate|].
    destruct (bytesSplit s sep) as [|piece pieces] eqn:Hs.
    + exfalso. exact (bytesSplit_nonempty _ _ Hs).
    + intros [= -> ->]. rewrite IH by reflexivity. reflexivity.
Qed.

Lemma showOctet_ok n :
  0 <= n < 256 ->
  Atoi (showOctet n) = Some n /\
  bytesSplit (showOctet n) "." = [showOctet n].
Proof.
  intros Hn.
  assert (Hall : forallb
            (fun k : nat =>
               match Atoi (showOctet (Z.of_nat k)) with
               | Some m => m =? Z.of_nat k
               | None => false
               end &&
               match bytesSplit (showOctet (Z.of_nat k)) "." with
               | [s] => String.eqb s (showOctet (Z.of_nat k))
               | _ => false
               end) (seq 0 256) = true) by (vm_compute; reflexivity).
  rewrite forallb_forall in Hall.
  specialize (Hall (Z.to_nat n)). rewrite Z2Nat.id in Hall by lia.
  assert (Hin : In (Z.to_nat n) (seq 0 256)) by (apply in_seq; lia).
  apply Hall in Hin. apply andb_true_iff in Hin as [H1 H2].
  split.
  - destruct (Atoi (showOctet n)) as [m|]; [|discriminate].
    apply Z.eqb_eq in H1. congruence.
  - destruct (bytesSplit (showOctet n) ".") as [|s [|? ?]];
      try discriminate.
    apply String.eqb_eq in H2. congruence.
Qed.

(** X14: [Lookup] accepts every dotted quad written in decimal with
    octets in 0..255, returns no error, and looks up the address the codec
    packs from those octets. *)
Theorem X14_lookup_dotted_quad (v : View) (a b c d : Z)
  (Ha : 0 <= a < 256) (Hb : 0 <= b < 256)
  (Hc : 0 <= c < 256) (Hd : 0 <= d < 256) :
  Lookup v (dottedQuad a b c d) =
  (viewLookup v (viewUintAddr [a; b; c; d]), None).
Proof.
  destruct (showOctet_ok a Ha) as [Aa Sa].
  destruct (showOctet_ok b Hb) as [Ab Sb].
  destruct (showOctet_ok c Hc) as [Ac Sc].
  destruct (showOctet_ok d Hd) as [Ad Sd].
  rewrite viewUintAddr_packed by assumption.
  rewrite (Lookup_components v _ (showOctet a) (showOctet b) (showOctet c)
             (showOctet d) a b c d); try assumption.
  - rewrite !Z.mod_small by assumption. reflexivity.
  - unfold dottedQuad.
    do 3 (change ("." ++ ?x)%string with (String "."%char x);
          rewrite bytesSplit_app by assumption).
    rewrite Sd. reflexivity.
Qed.

Lemma X14_lookup_dotted_quad_witness :
  Lookup (build [nestOuter; nestInner]) (dottedQuad 10 1 2 3) =
  (viewLookup (build [nestOuter; nestInner]) (viewUintAddr [10; 1; 2; 3]),
   None).
Proof.
  apply (X14_lookup_dotted_quad (build [nestOuter; nestInner]) 10 1 2 3);
    lia.
Defined.

(** * Properties of the loader *)

(** ** Slices of the net field *)

Lemma length_substring s : forall n m,
  (n + m <= String.length s)%nat -> String.length (substring n m s) = m.
Proof.
  induction s as [|c s IH]; intros n m H; simpl in *.
  - destruct n, m; simpl; lia.
  - destruct n as [|n].
    + destruct m as [|m]; simpl; [reflexivity|]. rewrite IH by lia.
      reflexivity.
    + apply IH. lia.
Qed.

Lemma bytesHasPrefix_length s p :
  bytesHasPrefix s p = true -> (String.length p <= String.length s)%nat.
Proof.
  unfold bytesHasPrefix. intros H. apply andb_true_iff in H as [H _].
  apply Nat.leb_le, H.
Qed.

Lemma bytesHasSuffix_length s suf :
  bytesHasSuffix s suf = true -> (String.length suf <= String.length s)%nat.
Proof.
  unfold bytesHasSuffix. intros H. apply andb_true_iff in H as [H _].
  apply Nat.leb_le, H.
Qed.

(** A field that starts with the prefix and ends with the suffix has a
    byte more than the suffix: the suffix does not start with the
    prefix. *)
Lemma prefix_and_suffix_length net :
  bytesHasPrefix net viewNetFieldPrefix = true ->
  bytesHasSuffix net viewNetFieldSuffix = true ->
  (6 <= String.length net)%nat.
Proof.
  intros Hp Hs.
  destruct net as [|c1 [|c2 [|c3 [|c4 [|c5 [|c6 r]]]]]];
    try discriminate Hs; [|simpl; lia].
  exfalso. unfold bytesHasSuffix, bytesHasPrefix in *. simpl in Hp, Hs.
  destruct (Ascii.eqb_spec c1 ";"%char) as [->|];
    [discriminate Hp|discriminate Hs].
Qed.

(** Neither slice of [viewLine] is out of range, and what they leave is
    the body of the net field. *)
Lemma netField_slices net :
  exists buf,
    (if bytesHasPrefix net viewNetFieldPrefix
     then sliceFrom net 1 else Some net) = Some buf /\
    (if bytesHasSuffix net viewNetFieldSuffix
     then sliceUpTo buf
            (Z.of_nat (String.length buf) -
             Z.of_nat (String.length viewNetFieldSuffix))
     else Some buf) = Some (netFieldBody net).
Proof.
  unfold netFieldBody.
  destruct (bytesHasPrefix net viewNetFieldPrefix) eqn:Hp.
  - pose proof (bytesHasPrefix_length _ _ Hp) as Hl1.
    change (String.length viewNetFieldPrefix) with 1%nat in Hl1.
    exists (substring 1 (String.length net - 1) net). split.
    + unfold sliceFrom. destruct (Nat.leb_spec 1 (String.length net));
        [reflexivity|lia].
    + destruct (bytesHasSuffix net viewNetFieldSuffix) eqn:Hs;
        [|reflexivity].
      pose proof (prefix_and_suffix_length _ Hp Hs) as Hl6.
      unfold sliceUpTo. rewrite length_substring by lia.
      change (String.length viewNetFieldSuffix) with 5%nat.
      destruct (Z.leb_spec 0 (Z.of_nat (String.length net - 1) - Z.of_nat 5));
        [|lia].
      destruct (Z.leb_spec (Z.of_nat (String.length net - 1) - Z.of_nat 5)
                  (Z.of_nat (String.length net - 1))); [|lia].
      simpl. do 2 f_equal. lia.
  - exists net. split; [reflexivity|].
    destruct (bytesHasSuffix net viewNetFieldSuffix) eqn:Hs; [|reflexivity].
    pose proof (bytesHasSuffix_length _ _ Hs) as Hl5.
    change (String.length viewNetFieldSuffix) with 5%nat in *.
    unfold sliceUpTo.
    destruct (Z.leb_spec 0 (Z.of_nat (String.length net) - Z.of_nat 5));
      [|lia].
    destruct (Z.leb_spec (Z.of_nat (String.length net) - Z.of_nat 5)
                (Z.of_nat (String.length net))); [|lia].
    simpl. do 2 f_equal. lia.
Qed.

(** ** Sequences of insertions on any view *)

Lemma viewInsertAll_cons v op ops :
  viewInsertAll v (op :: ops) = viewInsertAll (fst (viewInsertOp v op)) ops.
Proof. reflexivity. Qed.

Lemma viewInsertAll_app v ops ops' :
  viewInsertAll v (ops ++ ops') = viewInsertAll (viewInsertAll v ops) ops'.
Proof. unfold viewInsertAll. apply fold_left_app. Qed.

Lemma build_viewInsertAll ops : build ops = viewInsertAll New ops.
Proof. reflexivity. Qed.

Lemma viewInsertAll_fields ops : forall v,
  fileName (viewInsertAll v ops) = fileName v /\
  lineNum (viewInsertAll v ops) = lineNum v.
Proof.
  induction ops as [|op ops IH]; intros v; [split; reflexivity|].
  rewrite viewInsertAll_cons.
  destruct (IH (fst (viewInsertOp v op))) as [-> ->].
  apply viewInsert_fields.
Qed.

(** The root after a sequence of insertions depends on the root before
    it only. *)
Lemma root_viewInsertAll ops : forall v v',
  root v = root v' ->
  root (viewInsertAll v ops) = root (viewInsertAll v' ops).
Proof.
  induction ops as [|op ops IH]; intros v v' Hr; [exact Hr|].
  rewrite !viewInsertAll_cons. apply IH.
  unfold viewInsertOp. rewrite !root_viewInsert, Hr. reflexivity.
Qed.

Lemma viewInsertAll_withLineNum v n ops :
  viewInsertAll (withLineNum v n) ops = withLineNum (viewInsertAll v ops) n.
Proof.
  apply View_eq.
  - apply root_viewInsertAll. reflexivity.
  - destruct (viewInsertAll_fields ops (withLineNum v n)) as [-> _].
    simpl. destruct (viewInsertAll_fields ops v) as [-> _]. reflexivity.
  - destruct (viewInsertAll_fields ops (withLineNum v n)) as [_ ->].
    reflexivity.
Qed.

(** ** viewLine *)

(** The loop over the subnets inserts them in order up to the first one
    that does not parse. *)
Lemma viewLineLoop_piecesOps fields area pieces : forall v,
  fields !! 1%nat = Some area ->
  viewLineLoop v pieces fields =
  Some (viewInsertAll v (fst (piecesOps area pieces)),
        (fun e => errAtLine e (lineNum v)) <$> snd (piecesOps area pieces)).
Proof.
  induction pieces as [|piece rest IH]; intros v Harea; simpl.
  - reflexivity.
  - rewrite Harea, viewSubnet_parse. unfold viewSubnetOp.
    destruct (viewSubnetParse piece) as [[a mask]|]; [|reflexivity].
    rewrite (IH _ Harea).
    destruct (piecesOps area rest) as [ops err]. simpl.
    destruct (viewInsert_fields v a mask (Some (mkViewInfo area piece)))
      as [_ ->].
    reflexivity.
Qed.

(** [viewLine] in one formula. *)
Lemma viewLine_lineOps Fields v line :
  viewLine Fields v line =
  Some (viewInsertAll v (fst (lineOps Fields line)),
        (fun e => errAtLine e (lineNum v)) <$> snd (lineOps Fields line)).
Proof.
  unfold viewLine, lineOps.
  destruct (Nat.eqb_spec (length (Fields line)) viewLineFields)
    as [Hlen|Hlen]; cbn [negb]; [|reflexivity].
  unfold viewLineFields in Hlen.
  destruct (Fields line) as [|f0 [|f1 [|f2 [|f3 [|f4 [|f5 r]]]]]];
    try discriminate Hlen.
  change ([f0; f1; f2; f3; f4] !! viewLineNetField) with (Some f4).
  change ([f0; f1; f2; f3; f4] !!! viewLineNetField) with f4.
  change ([f0; f1; f2; f3; f4] !!! 1%nat) with f1.
  destruct (netField_slices f4) as (buf & -> & ->).
  destruct (Nat.ltb_spec
              (length (bytesSplit (netFieldBody f4) viewNetFieldSep)) 1)
    as [Hlt|_].
  - exfalso. pose proof (bytesSplit_nonempty (netFieldBody f4)
                           viewNetFieldSep).
    destruct (bytesSplit (netFieldBody f4) viewNetFieldSep);
      [congruence|simpl in Hlt; lia].
  - apply viewLineLoop_piecesOps. reflexivity.
Qed.

Lemma piecesOps_bad area pieces :
  snd (piecesOps area pieces) = None \/
  snd (piecesOps area pieces) = Some errBadSubnet.
Proof.
  induction pieces as [|piece rest IH]; simpl; [auto|].
  destruct (viewSubnetOp piece area); [|auto].
  destruct (piecesOps area rest); exact IH.
Qed.

(** The subnets load exactly when every one of them parses. *)
Lemma piecesOps_None area pieces :
  snd (piecesOps area pieces) = None <->
  forall piece, piece ∈ pieces -> is_Some (viewSubnetParse piece).
Proof.
  induction pieces as [|piece rest IH]; simpl.
  - split; [intros _ p Hin; inversion Hin|reflexivity].
  - unfold viewSubnetOp.
    destruct (viewSubnetParse piece) as [[a mask]|] eqn:Hp.
    + destruct (piecesOps area rest) as [ops err]; simpl in *.
      rewrite IH. split.
      * intros H p Hin. apply elem_of_cons in Hin as [->|Hin];
          [rewrite Hp; eauto|auto].
      * intros H p Hin. apply H. right. assumption.
    + simpl. split; [discriminate|].
      intros H. destruct (H piece) as [x Hx]; [left|congruence].
Qed.

(** ** Init *)

Lemma lineNumNext_after n k :
  lineNumNext (lineNumAfter n k) = lineNumAfter n (k + 1).
Proof.
  unfold lineNumNext, lineNumAfter.
  destruct (N.eqb_spec k 0) as [Hk|Hk];
    destruct (N.eqb_spec (k + 1) 0) as [H1|H1]; try lia.
  - subst k. reflexivity.
  - rewrite N.Div0.add_mod_idemp_l. f_equal. lia.
Qed.

Lemma withLineNum_same v : withLineNum v (lineNum v) = v.
Proof. destruct v; reflexivity. Qed.

Lemma withLineNum_twice v n m :
  withLineNum (withLineNum v n) m = withLineNum v m.
Proof. reflexivity. Qed.

(** The loop of [Init] loads the lines in order up to the first that
    fails, and counts them. *)
Lemma viewInitLoop_linesOps Fields TrimSpace rest fin chunks :
  forall v k n0,
  lineNum v = lineNumAfter n0 k ->
  viewInitLoop Fields TrimSpace v chunks rest fin =
  Some
    (match linesOps Fields TrimSpace
             (chunks ++ match fin with
                        | readEOF => [rest]
                        | readFails => []
                        end) k with
     | (ops, Some (k', err)) =>
         (withLineNum (viewInsertAll v ops) (lineNumAfter n0 k'),
          Some (errAtLine err (lineNumAfter n0 k')))
     | (ops, None) =>
         (withLineNum (viewInsertAll v ops)
            (lineNumAfter n0
               (k + N.of_nat
                      (length (chunks ++ match fin with
                                         | readEOF => [rest]
                                         | readFails => []
                                         end)))),
          readEndError fin)
     end).
Proof.
  assert (Hstep : forall v k n0 line,
    lineNum v = lineNumAfter n0 k ->
    viewLine Fields (withLineNum v (lineNumNext (lineNum v))) line =
    Some (withLineNum (viewInsertAll v (fst (lineOps Fields line)))
            (lineNumAfter n0 (k + 1)),
          (fun e => errAtLine e (lineNumAfter n0 (k + 1))) <$>
          snd (lineOps Fields line))).
  { intros v k n0 line Hn. rewrite viewLine_lineOps.
    rewrite viewInsertAll_withLineNum. simpl lineNum.
    rewrite Hn, lineNumNext_after. reflexivity. }
  induction chunks as [|chunk chunks IH]; intros v k n0 Hn.
  - destruct fin; simpl.
    + destruct (String.length (TrimSpace rest) =? 0)%nat.
      * rewrite Hn, lineNumNext_after. reflexivity.
      * rewrite (Hstep _ _ _ _ Hn).
        destruct (lineOps Fields (TrimSpace rest)) as [ops [err|]]; simpl.
        -- reflexivity.
        -- rewrite app_nil_r. reflexivity.
    + rewrite N.add_0_r, <- Hn, withLineNum_same. reflexivity.
  - simpl.
    assert (Hn1 : forall ops,
              lineNum (withLineNum (viewInsertAll v ops)
                         (lineNumAfter n0 (k + 1))) =
              lineNumAfter n0 (k + 1)) by reflexivity.
    destruct (String.length (TrimSpace chunk) =? 0)%nat.
    + rewrite (IH (withLineNum v (lineNumNext (lineNum v))) (k + 1)%N n0)
        by (simpl; rewrite Hn; apply lineNumNext_after).
      destruct (linesOps Fields TrimSpace _ (k + 1)) as [ops [[k' err]|]];
        simpl; rewrite !viewInsertAll_withLineNum, ?withLineNum_twice;
        [reflexivity|].
      do 3 f_equal. f_equal. lia.
    + rewrite (Hstep _ _ _ _ Hn).
      destruct (lineOps Fields (TrimSpace chunk)) as [ops [err|]]; simpl.
      * reflexivity.
      * rewrite (IH _ (k + 1)%N n0 (Hn1 ops)).
        destruct (linesOps Fields TrimSpace _ (k + 1)) as [ops' [[k' err]|]];
          simpl;
          rewrite !viewInsertAll_withLineNum, viewInsertAll_app,
            ?withLineNum_twice; [reflexivity|].
        do 3 f_equal. f_equal. lia.
Qed.

(** [Init] in one formula. *)
Lemma Init_linesOps Fields TrimSpace v name content fin :
  Init Fields TrimSpace v name (Some (content, fin)) =
  Some
    (match linesOps Fields TrimSpace (readLines content fin) 0 with
     | (ops, Some (k, err)) =>
         (mkView (root (viewInsertAll v ops)) name
            (lineNumAfter (lineNum v) k),
          Some (errAtLine err (lineNumAfter (lineNum v) k)))
     | (ops, None) =>
         (mkView (root (viewInsertAll v ops)) name
            (lineNumAfter (lineNum v)
               (N.of_nat (length (readLines content fin)))),
          readEndError fin)
     end).
Proof.
  unfold Init, readLines.
  rewrite (viewInitLoop_linesOps _ _ _ _ _ _ 0%N (lineNum v)) by reflexivity.
  assert (Hv : forall ops n,
    withLineNum (viewInsertAll (mkView (root v) name (lineNum v)) ops) n =
    mkView (root (viewInsertAll v ops)) name n).
  { intros ops n. apply View_eq; simpl.
    - apply root_viewInsertAll. reflexivity.
    - destruct (viewInsertAll_fields ops (mkView (root v) name (lineNum v)))
        as [-> _]. reflexivity.
    - reflexivity. }
  destruct (linesOps Fields TrimSpace _ 0) as [ops [[k err]|]];
    rewrite Hv; reflexivity.
Qed.

(** ** What the loader never does, and what a line loads *)

(** X15: neither [viewLine] nor [Init] panics, whatever the line, the
    file and the library functions give: with five fields both indices are
    in range, and a net field is never sliced beyond its ends, the suffix
    [";};};"] not starting with the prefix ["{"]. *)
Theorem X15_loader_never_panics (Fields : string -> list string)
    (TrimSpace : string -> string) (v : View) (line name : string)
    (file : option (string * readEnd)) :
  viewLine Fields v line <> None /\
  Init Fields TrimSpace v name file <> None.
Proof.
  split.
  - rewrite viewLine_lineOps. discriminate.
  - destruct file as [[content fin]|]; [|discriminate].
    rewrite Init_linesOps. discriminate.
Qed.

(** X16: a line that does not have five fields gives [errBadLine] with
    the current line number and changes nothing.  A line with five fields
    has its subnets, the [';']-separated pieces of the fifth field without
    ["{"] in front and [";};};"] behind, inserted in order under the area
    of the second field, up to the first piece [viewSubnet] rejects; the
    line succeeds exactly when every piece parses, and fails otherwise
    with [errBadSubnet] and the current line number, the pieces before
    staying inserted. *)
Theorem X16_viewLine_loads_in_order (Fields : string -> list string)
    (v : View) (line : string) :
  (length (Fields line) <> 5%nat ->
   viewLine Fields v line =
   Some (v, Some (errAtLine errBadLine (lineNum v)))) /\
  (length (Fields line) = 5%nat ->
   let area := Fields line !!! 1%nat in
   let pieces := bytesSplit (netFieldBody (Fields line !!! 4%nat)) ";" in
   viewLine Fields v line =
   Some (viewInsertAll v (fst (piecesOps area pieces)),
         (fun e => errAtLine e (lineNum v)) <$> snd (piecesOps area pieces)) /\
   (snd (piecesOps area pieces) = None <->
    forall piece, piece ∈ pieces -> is_Some (viewSubnetParse piece)) /\
   (snd (piecesOps area pieces) = None \/
    snd (piecesOps area pieces) = Some errBadSubnet)).
Proof.
  split.
  - intros Hlen. rewrite viewLine_lineOps. unfold lineOps.
    destruct (Nat.eqb_spec (length (Fields line)) viewLineFields);
      [contradiction|reflexivity].
  - intros Hlen. cbv zeta. split; [|split].
    + rewrite viewLine_lineOps. unfold lineOps.
      destruct (Nat.eqb_spec (length (Fields line)) viewLineFields);
        [reflexivity|contradiction].
    + apply piecesOps_None.
    + apply piecesOps_bad.
Qed.

Lemma piecesOps_rejects area pieces piece :
  piece ∈ pieces -> viewSubnetParse piece = None ->
  snd (piecesOps area pieces) = Some errBadSubnet.
Proof.
  intros Hin Hbad.
  destruct (piecesOps_bad area pieces) as [Hnone|H]; [|exact H].
  exfalso. destruct (proj1 (piecesOps_None area pieces) Hnone piece Hin)
    as [x Hx]. congruence.
Qed.

(** X17: a line of five fields whose net field has an empty piece, no
    subnet at all or two separators with nothing between them, is
    rejected with [errBadSubnet]: the loader takes one or more subnets per
    line, not none. *)
Theorem X17_empty_subnet_rejected (Fields : string -> list string)
    (v : View) (line : string) :
  length (Fields line) = 5%nat ->
  EmptyString ∈ bytesSplit (netFieldBody (Fields line !!! 4%nat)) ";" ->
  exists v', viewLine Fields v line =
             Some (v', Some (errAtLine errBadSubnet (lineNum v))).
Proof.
  intros Hlen Hin. rewrite viewLine_lineOps. unfold lineOps.
  destruct (Nat.eqb_spec (length (Fields line)) viewLineFields);
    [|contradiction].
  cbn [negb].
  rewrite (piecesOps_rejects _ _ EmptyString Hin eq_refl).
  eexists. reflexivity.
Qed.

Lemma X17_empty_subnet_rejected_witness :
  exists v', viewLine asciiFields New "view CT { match-clients {;};};" =
             Some (v', Some (errAtLine errBadSubnet (lineNum New))).
Proof.
  apply (X17_empty_subnet_rejected asciiFields New
           "view CT { match-clients {;};};").
  - reflexivity.
  - vm_compute. left.
Defined.

Lemma X16_viewLine_loads_in_order_witness :
  viewLine asciiFields New sampleLine =
  Some (viewInsertAll New
          [(0x0A000000, 8, mkViewInfo "CT" "10.0.0.0/8");
           (0x0A010000, 16, mkViewInfo "CT" "10.1.0.0/16")],
        None).
Proof.
  assert (H : length (asciiFields sampleLine) = 5%nat) by reflexivity.
  exact (proj1 (proj2 (X16_viewLine_loads_in_order asciiFields New
                         sampleLine) H)).
Defined.

(** ** What a file loads *)

(** X18: [Init] on a file that cannot be opened returns the error and
    the [View] untouched.  On a file that opens it records the name and
    inserts the subnets of the lines in file order, lines that are blank
    after trimming being skipped; it stops at the first line that fails,
    with that line's error and number, and what was inserted before stays
    inserted; when no line fails it returns [nil], or the read error when
    the reads did not end with [io.EOF], the bytes after the last newline
    then being left out.  The line counter goes up by one per line
    read. *)
Theorem X18_Init_loads_in_order (Fields : string -> list string)
    (TrimSpace : string -> string) (v : View) (name : string) :
  Init Fields TrimSpace v name None = Some (v, Some errOpen) /\
  forall (content : string) (fin : readEnd),
    Init Fields TrimSpace v name (Some (content, fin)) =
    Some
      (match linesOps Fields TrimSpace (readLines content fin) 0 with
       | (ops, Some (k, err)) =>
           (mkView (root (viewInsertAll v ops)) name
              (lineNumAfter (lineNum v) k),
            Some (errAtLine err (lineNumAfter (lineNum v) k)))
       | (ops, None) =>
           (mkView (root (viewInsertAll v ops)) name
              (lineNumAfter (lineNum v)
                 (N.of_nat (length (readLines content fin)))),
            readEndError fin)
       end).
Proof. split; [reflexivity|]. intros. apply Init_linesOps. Qed.

Lemma lineOps_errors Fields line err :
  snd (lineOps Fields line) = Some err ->
  err = errBadLine \/ err = errBadSubnet.
Proof.
  unfold lineOps.
  destruct (negb (length (Fields line) =? viewLineFields)%nat); simpl.
  - intros [= <-]. auto.
  - intros H. destruct (piecesOps_bad (Fields line !!! 1%nat)
      (bytesSplit (netFieldBody (Fields line !!! viewLineNetField))
         viewNetFieldSep)) as [H'|H']; rewrite H' in H;
      [discriminate|]. injection H as <-. auto.
Qed.

(** The line [linesOps] reports is the first one that fails. *)
Lemma linesOps_Some Fields TrimSpace lines : forall k ops k' err,
  linesOps Fields TrimSpace lines k = (ops, Some (k', err)) ->
  exists i : nat,
    (i < length lines)%nat /\
    k' = (k + N.of_nat (S i))%N /\
    String.length (TrimSpace (lines !!! i)) <> 0%nat /\
    snd (lineOps Fields (TrimSpace (lines !!! i))) = Some err /\
    forall j : nat, (j < i)%nat ->
      String.length (TrimSpace (lines !!! j)) = 0%nat \/
      snd (lineOps Fields (TrimSpace (lines !!! j))) = None.
Proof.
  induction lines as [|chunk rest IH]; intros k ops k' err; simpl.
  - discriminate.
  - destruct (Nat.eqb_spec (String.length (TrimSpace chunk)) 0)
      as [Hblank|Hline].
    + intros H. destruct (IH _ _ _ _ H) as (i & Hi & -> & Hn & He & Hb).
      exists (S i). repeat split; try assumption; try lia.
      intros [|j] Hj; [left; exact Hblank|]. apply Hb. lia.
    + destruct (lineOps Fields (TrimSpace chunk)) as [ops1 [e1|]] eqn:Hl.
      * intros [= <- <- <-]. exists O. repeat split; try lia.
        -- exact Hline.
        -- change ((chunk :: rest) !!! 0%nat) with chunk. rewrite Hl.
           reflexivity.
      * destruct (linesOps Fields TrimSpace rest (k + 1)) as [ops2 res]
          eqn:Hr.
        intros [= <- ->].
        destruct (IH _ _ _ _ Hr) as (i & Hi & -> & Hn & He & Hb).
        exists (S i). repeat split; try assumption; try lia.
        intros [|j] Hj.
        -- right. change ((chunk :: rest) !!! 0%nat) with chunk.
           rewrite Hl. reflexivity.
        -- apply Hb. lia.
Qed.

(** X19: when [Init] returns an error built for a line, the number in
    it is the counter the [View] had plus the position, counted from 1, of
    the first line that is not blank and fails; the counter is left at
    that number; every line before is blank or loaded in full; and the
    error is [errBadLine] or [errBadSubnet]. *)
Theorem X19_error_names_first_bad_line (Fields : string -> list string)
    (TrimSpace : string -> string) (v v' : View) (name content : string)
    (fin : readEnd) (e : error) (n : N) :
  Init Fields TrimSpace v name (Some (content, fin)) =
    Some (v', Some (errAtLine e n)) ->
  exists i : nat,
    (i < length (readLines content fin))%nat /\
    n = lineNumAfter (lineNum v) (N.of_nat (S i)) /\
    lineNum v' = n /\
    String.length (TrimSpace (readLines content fin !!! i)) <> 0%nat /\
    snd (lineOps Fields (TrimSpace (readLines content fin !!! i))) = Some e /\
    (forall j : nat, (j < i)%nat ->
       String.length (TrimSpace (readLines content fin !!! j)) = 0%nat \/
       snd (lineOps Fields (TrimSpace (readLines content fin !!! j))) = None)
    /\ (e = errBadLine \/ e = errBadSubnet).
Proof.
  rewrite Init_linesOps.
  destruct (linesOps Fields TrimSpace (readLines content fin) 0)
    as [ops [[k err]|]] eqn:Hl.
  - intros [= <- <- <-].
    destruct (linesOps_Some _ _ _ _ _ _ _ Hl) as (i & Hi & -> & Hn & He & Hb).
    exists i. rewrite N.add_0_l. repeat split; try assumption.
    apply (lineOps_errors _ _ _ He).
  - destruct fin; discriminate.
Qed.

Lemma X19_error_names_first_bad_line_witness :
  exists i : nat,
    (i < length (readLines brokenConfig readEOF))%nat /\
    2%N = lineNumAfter (lineNum New) (N.of_nat (S i)).
Proof.
  assert (H : Init asciiFields asciiTrimSpace New "views.conf"
                (Some (brokenConfig, readEOF)) =
              Some (mkView (root (viewInsertAll New
                       [(0x0A000000, 8, mkViewInfo "CT" "10.0.0.0/8");
                        (0x0A010000, 16, mkViewInfo "CT" "10.1.0.0/16");
                        (0xAC100000, 12, mkViewInfo "X" "172.16.0.0/12")]))
                      "views.conf" 2,
                    Some (errAtLine errBadSubnet 2)))
    by (vm_compute; reflexivity).
  destruct (X19_error_names_first_bad_line _ _ _ _ _ _ _ _ _ H)
    as (i & Hi & Hn & _).
  exists i. split; assumption.
Defined.

(** X20: after [Init] has loaded a file into a fresh [View] without an
    error, a lookup follows the longest-prefix rule over the subnets of the
    file in file order: it returns the entry of the earliest subnet among
    those of greatest length that contain the address, so of two subnets
    of the file that name the same prefix the first one counts.  Lengths
    are taken to be 0 or more. *)
Theorem X20_loaded_file_lookup (Fields : string -> list string)
    (TrimSpace : string -> string) (name content : string) (v' : View) :
  Init Fields TrimSpace New name (Some (content, readEOF)) =
    Some (v', None) ->
  let ops := fst (linesOps Fields TrimSpace (readLines content readEOF) 0) in
  Forall (fun op => 0 <= insLen op) ops ->
  root v' = root (build ops) /\
  forall A, viewLookup v' A = bestMatch ops A.
Proof.
  rewrite Init_linesOps. cbv zeta.
  destruct (linesOps Fields TrimSpace (readLines content readEOF) 0)
    as [ops [[k err]|]]; [discriminate|].
  intros [= <-] Hnn. simpl. split; [reflexivity|].
  intros A. rewrite <- (viewLookup_bestMatch ops A Hnn). reflexivity.
Qed.

Lemma X20_loaded_file_lookup_witness :
  viewLookup
    (mkView (root (build (fst (linesOps asciiFields asciiTrimSpace
                                 (readLines sampleConfig readEOF) 0))))
       "views.conf" 4) 0x0A000009 =
  bestMatch (fst (linesOps asciiFields asciiTrimSpace
                    (readLines sampleConfig readEOF) 0)) 0x0A000009.
Proof.
  refine (proj2 (X20_loaded_file_lookup asciiFields asciiTrimSpace
                   "views.conf" sampleConfig _ _ _) 0x0A000009).
  - vm_compute. reflexivity.
  - vm_compute. repeat constructor; discriminate.
Defined.

(** ** Loading a file again *)

(** An entry, once on a node, stays on it. *)
Lemma entryAt_viewInsert_kept v a mask info q x :
  entryAt q (root v) = Some x ->
  entryAt q (root (fst (viewInsert v a mask info))) = Some x.
Proof.
  intros Hq. rewrite entryAt_viewInsert.
  destruct (entryAt (targetOf a mask) (root v)) eqn:Ht; [exact Hq|].
  case_decide as Heq; [|exact Hq]. subst q. congruence.
Qed.

(** After a sequence of insertions the target of each of them carries an
    entry. *)
Lemma viewInsertAll_bound ops : forall v op,
  op ∈ ops ->
  entryAt (insTarget op) (root (viewInsertAll v ops)) <> None.
Proof.
  induction ops as [|x ops IH] using rev_ind; intros v op Hin.
  - inversion Hin.
  - rewrite viewInsertAll_app. simpl. unfold viewInsertOp.
    apply elem_of_app in Hin as [Hin|Hin].
    + specialize (IH v op Hin).
      destruct (entryAt (insTarget op) (root (viewInsertAll v ops)))
        as [y|] eqn:Hy; [|congruence].
      rewrite (entryAt_viewInsert_kept _ _ _ _ _ _ Hy). discriminate.
    + apply list_elem_of_singleton in Hin as ->.
      rewrite entryAt_viewInsert. fold (insTarget x).
      destruct (entryAt (insTarget x) (root (viewInsertAll v ops))) eqn:Hy.
      * discriminate.
      * rewrite decide_True; [discriminate|reflexivity].
Qed.

(** Insertions whose targets all carry an entry change nothing. *)
Lemma viewInsertAll_noop ops : forall v,
  (forall op, op ∈ ops -> entryAt (insTarget op) (root v) <> None) ->
  viewInsertAll v ops = v.
Proof.
  induction ops as [|x ops IH]; intros v Hall; [reflexivity|].
  rewrite viewInsertAll_cons. unfold viewInsertOp.
  destruct (entryAt (insTarget x) (root v)) as [y|] eqn:Hy.
  - unfold insTarget in Hy. rewrite (viewInsert_dup_same _ _ _ _ _ Hy).
    simpl. apply IH. intros op Hin. apply Hall. right. assumption.
  - exfalso. apply (Hall x); [left|assumption].
Qed.

(** X21: loading the same bytes a second time changes no node and no
    entry of the trie, whether the first load ended in an error or not, so
    every lookup answers as after the first load. *)
Theorem X21_reload_changes_nothing (Fields : string -> list string)
    (TrimSpace : string -> string) (v v1 : View) (name name' content : string)
    (fin : readEnd) (e1 : option loadError) :
  Init Fields TrimSpace v name (Some (content, fin)) = Some (v1, e1) ->
  exists v2 e2,
    Init Fields TrimSpace v1 name' (Some (content, fin)) = Some (v2, e2) /\
    root v2 = root v1 /\
    forall A, viewLookup v2 A = viewLookup v1 A.
Proof.
  rewrite !Init_linesOps.
  assert (Hsame : forall ops n,
    root (viewInsertAll (mkView (root (viewInsertAll v ops)) name n) ops) =
    root (viewInsertAll v ops)).
  { intros ops n.
    rewrite (root_viewInsertAll ops _ (viewInsertAll v ops)) by reflexivity.
    rewrite viewInsertAll_noop; [reflexivity|].
    intros op Hin. apply viewInsertAll_bound, Hin. }
  destruct (linesOps Fields TrimSpace (readLines content fin) 0)
    as [ops [[k err]|]]; intros [= <- <-]; eexists _, _;
    (split; [reflexivity|]); cbn [root]; rewrite !Hsame;
    (split; [reflexivity|]); intros A; reflexivity.
Qed.

Lemma X21_reload_changes_nothing_witness :
  exists v2 e2,
    Init asciiFields asciiTrimSpace
      (mkView (root (viewInsertAll New
                 (fst (linesOps asciiFields asciiTrimSpace
                         (readLines sampleConfig readEOF) 0))))
         "views.conf" 4)
      "views.conf" (Some (sampleConfig, readEOF)) = Some (v2, e2) /\
    root v2 =
    root (viewInsertAll New
            (fst (linesOps asciiFields asciiTrimSpace
                    (readLines sampleConfig readEOF) 0))).
Proof.
  assert (H : Init asciiFields asciiTrimSpace New "views.conf"
                (Some (sampleConfig, readEOF)) =
              Some (mkView (root (viewInsertAll New
                       (fst (linesOps asciiFields asciiTrimSpace
                               (readLines sampleConfig readEOF) 0))))
                      "views.conf" 4, None))
    by (vm_compute; reflexivity).
  destruct (X21_reload_changes_nothing _ _ _ _ _ "views.conf" _ _ _ H)
    as (v2 & e2 & Hi & Hr & _).
  exists v2, e2. split; assumption.
Defined.
